(** * Arbitrage bot: a shallow embedding of [app.py] and its properties

    The module [app.py] polls six exchanges for a fixed list of pairs, keeps
    the pairs listed on at least two of them, collects one ticker per
    exchange and pair, and evaluates one buy/sell pairing per pair against
    the reference exchange.

    Modelling choices.
    - Python floats are idealised as exact rationals ([Q]); decimal
      literals such as [0.002] denote the rational they spell.
    - A [dict] is an association list in insertion order ([dict_set]
      overwrites in place or appends); a Python [set] is a [gset].
    - The two module globals ([transaction_history], [unsupported_pairs])
      live in a [State] record threaded by a state and exception monad [M].
      Exceptions are values: [try_except] is Python's [try/except Exception].
    - The exchange clients and the wall clock are not code of this module:
      they are a [World], an oracle answering each call from the number of
      calls made so far, so that answers may change over time. Every call is
      appended to the [calls] log of the state. Calls to [logger] have no
      effect on any value and are left out. *)

From stdpp Require Import gmap strings list.
From Stdlib Require Import QArith Qabs Lqa.

Set Warnings "-clear-no-such-hyp,-register-all".

Close Scope Q_scope.

(** ** Data *)

(** The ticker dict of an exchange client: ['last'] and ['quoteVolume'],
    either of which may be [None]. *)
Record Ticker := { ticker_last : option Q; ticker_quoteVolume : option Q }.

(** The entry [{"last": ..., "volume": ...}] stored per exchange by
    [get_prices]. *)
Record PriceEntry := { last : option Q; volume : option Q }.

(** The dict appended to [results] by [calculate_arbitrage]. *)
Module Opportunity.
Record t := {
  pair : string;
  buy_exchange : string;
  buy_price : Q;
  sell_exchange : string;
  sell_price : Q;
  roi : Q;
  spread : Q;
  avg_price : Q;
  usd_operation_value : Q;
}.
End Opportunity.

(** The dict appended to [transaction_history]: the same nine keys and a
    ["timestamp"]. *)
Module Transaction.
Record t := {
  pair : string;
  buy_exchange : string;
  buy_price : Q;
  sell_exchange : string;
  sell_price : Q;
  roi : Q;
  spread : Q;
  avg_price : Q;
  usd_operation_value : Q;
  timestamp : string;
}.
End Transaction.

(** ** Configuration constants *)

Definition min_profit_margin : Q := 0.002.
Definition transaction_fee : Q := 0.001.
Definition slippage : Q := 0.0005.
Definition fixed_investment : Q := 100.

Definition initial_pairs : list string :=
  [ "ETH/USDT"; "XRP/USDT"; "ADA/USDT"; "NEAR/USDT";
    "TRON/USDT"; "DOT/USDT"; "AVAX/USDT"; "TON/USDT";
    "ENA/USDT"; "AAVE/USDT"; "LTC/USDT"; "APT/USDT" ].

(** The keys of the [exchanges] dict, in insertion order. *)
Definition exchanges : list string :=
  [ "binance"; "kraken"; "coinbase"; "kucoin"; "bitget"; "bitfinex" ].

(** ** Dicts in insertion order *)

Section Dict.
Context {V : Type}.

(** [d[k] = v]: overwrite the value of an existing key where it stands,
    append a new key at the end. *)
Fixpoint dict_set (k : string) (v : V) (d : list (string * V)) : list (string * V) :=
  match d with
  | [] => [(k, v)]
  | (k', v') :: d' =>
      if bool_decide (k' = k) then (k, v) :: d' else (k', v') :: dict_set k v d'
  end.

(** [d.get(k)] *)
Fixpoint dict_get (k : string) (d : list (string * V)) : option V :=
  match d with
  | [] => None
  | (k', v) :: d' => if bool_decide (k' = k) then Some v else dict_get k d'
  end.

Definition dict_keys (d : list (string * V)) : list string := d.*1.
End Dict.

(** ** State, world and the monad *)

Inductive Call :=
| LoadMarkets (exchange_name : string)
| FetchTicker (exchange_name : string) (pair : string)
| Now.

Record State := {
  transaction_history : list Transaction.t;
  unsupported_pairs : gset string;
  calls : list Call;
}.

(** What lies outside the module. [None] stands for a raised exception
    (network error, timeout, malformed answer). The first argument is the
    number of calls made before this one. *)
Record World := {
  load_markets_at : nat → string → option (list string);
  fetch_ticker_at : nat → string → string → option Ticker;
  now_at : nat → string;
}.

Inductive Exception := ExchangeError | ZeroDivisionError | ValueError.

Inductive Outcome (A : Type) :=
| Ok (a : A)
| Raise (e : Exception).
Arguments Ok {A} a.
Arguments Raise {A} e.

Definition M (A : Type) : Type := State → Outcome A * State.

#[global] Instance M_ret : MRet M := λ A a s, (Ok a, s).

#[global] Instance M_bind : MBind M := λ A B f m s,
  match m s with
  | (Ok a, s') => f a s'
  | (Raise e, s') => (Raise e, s')
  end.

Definition raise {A} (e : Exception) : M A := λ s, (Raise e, s).

(** [try: m  except Exception as e: h e] *)
Definition try_except {A} (m : M A) (h : Exception → M A) : M A := λ s,
  match m s with
  | (Ok a, s') => (Ok a, s')
  | (Raise e, s') => h e s'
  end.

(** A [for] loop whose body updates the local variables [acc]. *)
Fixpoint for_each {A B} (body : B → A → M B) (l : list A) (acc : B) : M B :=
  match l with
  | [] => mret acc
  | x :: l' => acc' ← body acc x; for_each body l' acc'
  end.

Definition log_call (c : Call) (s : State) : State :=
  {| transaction_history := transaction_history s;
     unsupported_pairs := unsupported_pairs s;
     calls := calls s ++ [c] |}.

Definition get_unsupported_pairs : M (gset string) := λ s, (Ok (unsupported_pairs s), s).

(** [unsupported_pairs.add(pair)] *)
Definition unsupported_pairs_add (pair : string) : M unit := λ s,
  (Ok (), {| transaction_history := transaction_history s;
             unsupported_pairs := {[pair]} ∪ unsupported_pairs s;
             calls := calls s |}).

Definition get_transaction_history : M (list Transaction.t) :=
  λ s, (Ok (transaction_history s), s).

(** [transaction_history.append(transaction)] *)
Definition transaction_history_append (tx : Transaction.t) : M unit := λ s,
  (Ok (), {| transaction_history := transaction_history s ++ [tx];
             unsupported_pairs := unsupported_pairs s;
             calls := calls s |}).

(** [a / b] on numbers. *)
Definition py_div (a b : Q) : M Q :=
  if Qeq_bool b 0 then raise ZeroDivisionError else mret (a / b)%Q.

Section Program.
Variable w : World.

(** [exchange.load_markets()]: the keys of the markets dict. *)
Definition load_markets (exchange_name : string) : M (list string) := λ s,
  match load_markets_at w (length (calls s)) exchange_name with
  | Some markets => (Ok markets, log_call (LoadMarkets exchange_name) s)
  | None => (Raise ExchangeError, log_call (LoadMarkets exchange_name) s)
  end.

(** [exchange.fetch_ticker(pair)] *)
Definition fetch_ticker (exchange_name pair : string) : M Ticker := λ s,
  match fetch_ticker_at w (length (calls s)) exchange_name pair with
  | Some ticker => (Ok ticker, log_call (FetchTicker exchange_name pair) s)
  | None => (Raise ExchangeError, log_call (FetchTicker exchange_name pair) s)
  end.

(** [datetime.now().strftime(...)] *)
Definition now : M string := λ s,
  (Ok (now_at w (length (calls s))), log_call Now s).

(** *** [get_supported_pairs] *)

(** The inner loop over [exchanges.items()] for one pair. *)
Definition supported_exchanges_of (pair : string) : M (list string) :=
  for_each (λ supported_exchanges exchange_name,
    try_except
      (markets ← load_markets exchange_name;
       if bool_decide (pair ∈ markets)
       then mret (supported_exchanges ++ [exchange_name])
       else mret supported_exchanges)
      (λ _, mret supported_exchanges))
    exchanges [].

(** The body of the outer loop. *)
Definition check_pair (supported_pairs : list string) (pair : string) : M (list string) :=
  unsupported ← get_unsupported_pairs;
  if bool_decide (pair ∈ unsupported) then mret supported_pairs
  else
    supported_exchanges ← supported_exchanges_of pair;
    if (2 <=? length supported_exchanges)%nat
    then mret (supported_pairs ++ [pair])
    else _ ← unsupported_pairs_add pair; mret supported_pairs.

Definition get_supported_pairs (pairs : list string) : M (list string) :=
  for_each check_pair pairs [].

(** *** [get_prices] *)

(** The inner loop over [exchanges.items()] for one pair. *)
Definition prices_of (pair : string) : M (list (string * option PriceEntry)) :=
  for_each (λ prices exchange_name,
    try_except
      (ticker ← fetch_ticker exchange_name pair;
       mret (dict_set exchange_name
               (Some {| last := ticker_last ticker;
                        volume := ticker_quoteVolume ticker |}) prices))
      (λ _, mret (dict_set exchange_name None prices)))
    exchanges [].

Definition get_prices (pairs : list string)
  : M (list (string * list (string * option PriceEntry))) :=
  for_each (λ all_prices pair,
    prices ← prices_of pair;
    mret (dict_set pair prices all_prices))
    pairs [].

(** *** [calculate_arbitrage] *)

(** The comprehension that keeps the entries that are not [None] and
    whose ['last'] is not [None]. Only ['last'] is read afterwards, so a
    kept entry is represented by its last price. *)
Definition valid_prices_of (pair_prices : list (string * option PriceEntry))
  : list (string * Q) :=
  omap (λ kv, match kv.2 with
              | Some entry => match last entry with
                              | Some p => Some (kv.1, p)
                              | None => None
                              end
              | None => None
              end) pair_prices.

Definition other_exchanges_prices_of (valid_prices : list (string * Q))
  : list (string * Q) :=
  filter (λ kv, kv.1 ≠ "binance") valid_prices.

(** [min(d, key=lambda x: d[x]['last'])] together with the lookup
    [d[buy_exchange]['last']] that follows it: the running best is
    replaced only by a strictly smaller price; an empty dict raises. *)
Definition py_min (d : list (string * Q)) : M (string * Q) :=
  match d with
  | [] => raise ValueError
  | kv :: d' =>
      mret (fold_left (λ best x, if Qlt_le_dec x.2 best.2 then x else best) d' kv)
  end.

(** [sum(...)]: starts from 0 and adds from left to right. *)
Definition py_sum (l : list Q) : Q := fold_left Qplus l 0%Q.

(** [len(...)] as a number. *)
Definition py_len {A} (l : list A) : Q := inject_Z (Z.of_nat (length l)).

(** The local variables of one iteration at the [logger.info] line. *)
Record Quote := {
  buy_exchange : string;
  buy_price : Q;
  sell_exchange : string;
  sell_price : Q;
  adjusted_buy_price : Q;
  adjusted_sell_price : Q;
  roi : Q;
  avg_price : Q;
  spread : Q;
}.

(** Lines 87 to 116: [None] is the [continue] of a skipped pair. The test
    [not binance_prices] is on the entry dict, which is never empty, so it
    holds exactly when the lookup returned [None]. *)
Definition quote_pair (pair_prices : list (string * option PriceEntry))
  : M (option Quote) :=
  let valid_prices := valid_prices_of pair_prices in
  let binance_prices := dict_get "binance" valid_prices in
  let other_exchanges_prices := other_exchanges_prices_of valid_prices in
  match binance_prices with
  | None => mret None
  | Some binance_last =>
      if bool_decide (other_exchanges_prices = []) then mret None
      else
        let sell_exchange := "binance" in
        let sell_price := binance_last in
        buy ← py_min other_exchanges_prices;
        let buy_exchange := buy.1 in
        let buy_price := buy.2 in
        let adjusted_buy_price := (buy_price * (1 + transaction_fee + slippage))%Q in
        let adjusted_sell_price := (sell_price * (1 - transaction_fee - slippage))%Q in
        roi ← (if Qlt_le_dec 0 adjusted_buy_price
               then q ← py_div (adjusted_sell_price - adjusted_buy_price) adjusted_buy_price;
                    mret (q * 100)%Q
               else mret 0%Q);
        avg_price ← py_div (py_sum valid_prices.*2) (py_len valid_prices);
        spread ← (if Qlt_le_dec 0 avg_price
                  then q ← py_div (sell_price - buy_price) avg_price;
                       mret (q * 100)%Q
                  else mret 0%Q);
        mret (Some {| buy_exchange := buy_exchange; buy_price := buy_price;
                      sell_exchange := sell_exchange; sell_price := sell_price;
                      adjusted_buy_price := adjusted_buy_price;
                      adjusted_sell_price := adjusted_sell_price;
                      roi := roi; avg_price := avg_price; spread := spread |})
  end.

Definition opportunity_of (pair : string) (q : Quote) (usd_operation_value : Q)
  : Opportunity.t :=
  {| Opportunity.pair := pair;
     Opportunity.buy_exchange := buy_exchange q;
     Opportunity.buy_price := buy_price q;
     Opportunity.sell_exchange := sell_exchange q;
     Opportunity.sell_price := sell_price q;
     Opportunity.roi := roi q;
     Opportunity.spread := spread q;
     Opportunity.avg_price := avg_price q;
     Opportunity.usd_operation_value := usd_operation_value |}.

Definition transaction_of (o : Opportunity.t) (timestamp : string) : Transaction.t :=
  {| Transaction.pair := Opportunity.pair o;
     Transaction.buy_exchange := Opportunity.buy_exchange o;
     Transaction.buy_price := Opportunity.buy_price o;
     Transaction.sell_exchange := Opportunity.sell_exchange o;
     Transaction.sell_price := Opportunity.sell_price o;
     Transaction.roi := Opportunity.roi o;
     Transaction.spread := Opportunity.spread o;
     Transaction.avg_price := Opportunity.avg_price o;
     Transaction.usd_operation_value := Opportunity.usd_operation_value o;
     Transaction.timestamp := timestamp |}.

(** The body of the loop over [prices.items()]. *)
Definition evaluate_pair (results : list Opportunity.t)
    (item : string * list (string * option PriceEntry)) : M (list Opportunity.t) :=
  q ← quote_pair item.2;
  match q with
  | None => mret results
  | Some q =>
      if Qle_bool (min_profit_margin * 100) (roi q) then
        r ← py_div (roi q) 100;
        let usd_operation_value := (fixed_investment * (1 + r))%Q in
        let o := opportunity_of item.1 q usd_operation_value in
        timestamp ← now;
        _ ← transaction_history_append (transaction_of o timestamp);
        mret (results ++ [o])
      else mret results
  end.

Definition calculate_arbitrage (prices : list (string * list (string * option PriceEntry)))
  : M (list Opportunity.t) :=
  for_each evaluate_pair prices [].
End Program.

(** *** [get_data_api] *)

Record Performance := { total_roi : Q; total_usd_operations : Q }.

(** The dict handed to [jsonify]. *)
Module Response.
Record t := {
  results : list Opportunity.t;
  performance : Performance;
  transaction_history : list Transaction.t;
}.
End Response.

(** The simulated entry used when there are no real results. *)
Definition simulated_result : Opportunity.t :=
  {| Opportunity.pair := "ETH/USDT";
     Opportunity.buy_exchange := "kraken";
     Opportunity.buy_price := 3000.0;
     Opportunity.sell_exchange := "binance";
     Opportunity.sell_price := 3020.0;
     Opportunity.roi := 0.67;
     Opportunity.spread := 0.45;
     Opportunity.avg_price := 3010.0;
     Opportunity.usd_operation_value := 100.67 |}.

Definition get_data_api_dict (w : World) : M Response.t :=
  pairs ← get_supported_pairs w initial_pairs;
  prices ← get_prices w pairs;
  results ← calculate_arbitrage w prices;
  let results := match results with [] => [simulated_result] | _ => results end in
  history ← get_transaction_history;
  let total_roi :=
    match history with [] => 0%Q | _ => py_sum (Transaction.roi <$> history) end in
  let total_usd_operations :=
    match history with
    | [] => 0%Q
    | _ => py_sum (Transaction.usd_operation_value <$> history)
    end in
  let performance := {| total_roi := total_roi;
                        total_usd_operations := total_usd_operations |} in
  mret {| Response.results := results;
          Response.performance := performance;
          Response.transaction_history := history |}.

(** What [jsonify] writes, up to the order of the keys of an object. *)
Inductive Json :=
| JNumber (q : Q)
| JString (s : string)
| JArray (items : list Json)
| JObject (fields : list (string * Json)).

Definition json_of_opportunity (o : Opportunity.t) : Json :=
  JObject [ ("pair", JString (Opportunity.pair o));
            ("buy_exchange", JString (Opportunity.buy_exchange o));
            ("buy_price", JNumber (Opportunity.buy_price o));
            ("sell_exchange", JString (Opportunity.sell_exchange o));
            ("sell_price", JNumber (Opportunity.sell_price o));
            ("roi", JNumber (Opportunity.roi o));
            ("spread", JNumber (Opportunity.spread o));
            ("avg_price", JNumber (Opportunity.avg_price o));
            ("usd_operation_value", JNumber (Opportunity.usd_operation_value o)) ].

Definition json_of_transaction (tx : Transaction.t) : Json :=
  JObject [ ("pair", JString (Transaction.pair tx));
            ("buy_exchange", JString (Transaction.buy_exchange tx));
            ("buy_price", JNumber (Transaction.buy_price tx));
            ("sell_exchange", JString (Transaction.sell_exchange tx));
            ("sell_price", JNumber (Transaction.sell_price tx));
            ("roi", JNumber (Transaction.roi tx));
            ("spread", JNumber (Transaction.spread tx));
            ("avg_price", JNumber (Transaction.avg_price tx));
            ("usd_operation_value", JNumber (Transaction.usd_operation_value tx));
            ("timestamp", JString (Transaction.timestamp tx)) ].

Definition jsonify (r : Response.t) : Json :=
  JObject [ ("results", JArray (json_of_opportunity <$> Response.results r));
            ("performance",
             JObject [ ("total_roi", JNumber (total_roi (Response.performance r)));
                       ("total_usd_operations",
                        JNumber (total_usd_operations (Response.performance r))) ]);
            ("transaction_history",
             JArray (json_of_transaction <$> Response.transaction_history r)) ].

Definition get_data_api (w : World) : M Json :=
  r ← get_data_api_dict w; mret (jsonify r).

(** The state of a freshly started process. *)
Definition initial_state : State :=
  {| transaction_history := []; unsupported_pairs := ∅; calls := [] |}.

(** * Vocabulary of the properties

    Derived notions, scenarios and the pure readings of the loops that the
    statements below are written with. *)

(** The arithmetic mean, as the sum from the right over the count. *)
Definition mean (l : list Q) : Q :=
  (foldr Qplus 0 l / inject_Z (Z.of_nat (length l)))%Q.

(** [min] keeps the first of the cheapest entries: everything before the
    result is strictly dearer, everything after it is at least as dear. *)
Definition first_cheapest (d : list (string * Q)) (kv : string * Q) : Prop :=
  ∃ l1 l2, d = l1 ++ kv :: l2
           ∧ Forall (λ x, kv.2 < x.2)%Q l1
           ∧ Forall (λ x, kv.2 <= x.2)%Q l2.

(** The entries of a snapshot set that carry a last price. *)
Definition has_last (pair_prices : list (string * option PriceEntry))
    (exchange_name : string) (p : Q) : Prop :=
  ∃ entry, (exchange_name, Some entry) ∈ pair_prices ∧ last entry = Some p.

(** The value of the program expression for the ROI. *)
Definition roi_of (buy_price sell_price : Q) : Q :=
  let adjusted_buy_price := (buy_price * (1 + transaction_fee + slippage))%Q in
  let adjusted_sell_price := (sell_price * (1 - transaction_fee - slippage))%Q in
  if Qlt_le_dec 0 adjusted_buy_price
  then ((adjusted_sell_price - adjusted_buy_price) / adjusted_buy_price * 100)%Q
  else 0%Q.

Definition spread_of (buy_price sell_price avg_price : Q) : Q :=
  if Qlt_le_dec 0 avg_price
  then ((sell_price - buy_price) / avg_price * 100)%Q
  else 0%Q.

(** The quote of a snapshot set, read off a run of [quote_pair]. *)
Definition quote_of (pair_prices : list (string * option PriceEntry)) : option Quote :=
  match (quote_pair pair_prices initial_state).1 with
  | Ok q => q
  | Raise _ => None
  end.

(** The opportunity the engine emits for one item of the snapshot
    mapping, if any. *)
Definition emitted (item : string * list (string * option PriceEntry))
  : option Opportunity.t :=
  match quote_of item.2 with
  | Some q =>
      if Qle_bool (min_profit_margin * 100) (roi q)
      then Some (opportunity_of item.1 q (fixed_investment * (1 + roi q / 100)))
      else None
  | None => None
  end.

(** The effect of recording one opportunity: a clock read and an append. *)
Definition record (w : World) (s : State) (o : Opportunity.t) : State :=
  {| transaction_history :=
       transaction_history s ++ [transaction_of o (now_at w (length (calls s)))];
     unsupported_pairs := unsupported_pairs s;
     calls := calls s ++ [Now] |}.

(** The transactions appended for a list of opportunities: the i-th one
    carries the clock reading of the i-th read. *)
Definition stamped (w : World) (n : nat) (os : list Opportunity.t) : list Transaction.t :=
  imap (λ i o, transaction_of o (now_at w (n + i))) os.

(** The last prices reported for a pair, in iteration order. *)
Definition reported_lasts (pair_prices : list (string * option PriceEntry)) : list Q :=
  omap (λ kv, kv.2 ≫= last) pair_prices.

Definition entry_at (p : Q) : option PriceEntry :=
  Some {| last := Some p; volume := None |}.

(** One exchange at 3000 and the reference exchange at 3020. *)
Definition scenario_pair_prices : list (string * option PriceEntry) :=
  [ ("kraken", entry_at 3000); ("binance", entry_at 3020) ].

(** Two exchanges tie for the lowest price; a third has no ticker. *)
Definition tie_pair_prices : list (string * option PriceEntry) :=
  [ ("binance", entry_at 3020); ("kraken", entry_at 3000);
    ("coinbase", entry_at 3000); ("kucoin", None) ].

(** A world where nothing answers and the clock stands still. *)
Definition silent_world : World :=
  {| load_markets_at := λ _ _, None;
     fetch_ticker_at := λ _ _ _, None;
     now_at := λ _, "2024-01-01 00:00:00" |}.

Definition tie_opportunity : Opportunity.t :=
  Eval vm_compute in
    default simulated_result (head (omap emitted [("ETH/USDT", tie_pair_prices)])).

Definition two_pair_prices : list (string * list (string * option PriceEntry)) :=
  [ ("ETH/USDT", scenario_pair_prices); ("XRP/USDT", [("binance", entry_at 1)]) ].

Definition scenario_opportunity : Opportunity.t :=
  Eval vm_compute in
    default simulated_result (head (omap emitted [("ETH/USDT", scenario_pair_prices)])).

(** [x] is within [tol] of [y]. *)
Definition approx (tol x y : Q) : Prop := (Qabs (x - y) <= tol)%Q.

Definition log_calls (cs : list Call) (s : State) : State :=
  {| transaction_history := transaction_history s;
     unsupported_pairs := unsupported_pairs s;
     calls := calls s ++ cs |}.

(** Whether the exchange lists the pair when asked as call number [n]; a
    failed query counts as not listed. *)
Definition lists_at (w : World) (n : nat) (exchange_name pair : string) : bool :=
  match load_markets_at w n exchange_name with
  | Some markets => bool_decide (pair ∈ markets)
  | None => false
  end.

(** The exchanges among [es] that list the pair when they are asked one
    after the other from call number [n] on. *)
Fixpoint listing_from (w : World) (n : nat) (pair : string) (es : list string)
  : list string :=
  match es with
  | [] => []
  | e :: es' =>
      (if lists_at w n e pair then [e] else []) ++ listing_from w (S n) pair es'
  end.

Definition add_unsupported (pair : string) (s : State) : State :=
  {| transaction_history := transaction_history s;
     unsupported_pairs := {[pair]} ∪ unsupported_pairs s;
     calls := calls s |}.

(** Whether one iteration of the filter keeps the pair, and the state it
    leaves. *)
Definition keeps (w : World) (s : State) (pair : string) : bool :=
  negb (bool_decide (pair ∈ unsupported_pairs s))
  && (2 <=? length (listing_from w (length (calls s)) pair exchanges))%nat.

Definition after_check (w : World) (s : State) (pair : string) : State :=
  if bool_decide (pair ∈ unsupported_pairs s) then s
  else if (2 <=? length (listing_from w (length (calls s)) pair exchanges))%nat
       then log_calls (LoadMarkets <$> exchanges) s
       else add_unsupported pair (log_calls (LoadMarkets <$> exchanges) s).

Fixpoint kept (w : World) (s : State) (pairs : list string) : list string :=
  match pairs with
  | [] => []
  | p :: ps => (if keeps w s p then [p] else []) ++ kept w (after_check w s p) ps
  end.

(** The entry stored for an answer of [fetch_ticker]. *)
Definition entry_of (answer : option Ticker) : option PriceEntry :=
  match answer with
  | Some ticker => Some {| last := ticker_last ticker; volume := ticker_quoteVolume ticker |}
  | None => None
  end.

(** The snapshot set built by asking the exchanges [es] one after the
    other from call number [n] on. *)
Fixpoint snapshot_from (w : World) (n : nat) (pair : string) (es : list string)
  : list (string * option PriceEntry) :=
  match es with
  | [] => []
  | e :: es' => (e, entry_of (fetch_ticker_at w n e pair)) :: snapshot_from w (S n) pair es'
  end.

(** The ticker queries of one pair, and of a list of pairs. *)
Definition fetches (pair : string) : list Call :=
  (λ e, FetchTicker e pair) <$> exchanges.

(** The mapping filled by the outer loop of [get_prices]. *)
Fixpoint collected (w : World) (n : nat) (pairs : list string)
    (all_prices : list (string * list (string * option PriceEntry)))
  : list (string * list (string * option PriceEntry)) :=
  match pairs with
  | [] => all_prices
  | p :: ps =>
      collected w (n + length exchanges) ps
        (dict_set p (snapshot_from w n p exchanges) all_prices)
  end.

(** Whether the pair is in the market list of the exchange; an exchange
    whose query fails lists nothing. *)
Definition listed_on (markets : string → option (list string))
    (pair exchange_name : string) : bool :=
  match markets exchange_name with
  | Some ms => bool_decide (pair ∈ ms)
  | None => false
  end.

(** Market lists that do not change: bitget always fails. *)
Definition steady_markets (exchange_name : string) : option (list string) :=
  if bool_decide (exchange_name = "bitget") then None
  else if bool_decide (exchange_name = "binance") then Some ["ETH/USDT"; "XRP/USDT"]
  else if bool_decide (exchange_name = "kraken") then Some ["ETH/USDT"]
  else Some [].

(** A world with these market lists, where kraken quotes 3000 and binance
    3020 for every pair and the other exchanges fail. *)
Definition steady_world : World :=
  {| load_markets_at := λ _ e, steady_markets e;
     fetch_ticker_at := λ _ e _,
       if bool_decide (e = "kraken")
       then Some {| ticker_last := Some 3000%Q; ticker_quoteVolume := Some 10%Q |}
       else if bool_decide (e = "binance")
       then Some {| ticker_last := Some 3020%Q; ticker_quoteVolume := None |}
       else None;
     now_at := λ _, "2024-01-01 00:00:00" |}.

(** The real results of a cycle started in state [s], and the state the
    cycle leaves. *)
Definition cycle_pairs (w : World) (s : State) : list string :=
  kept w s initial_pairs.

Definition cycle_prices (w : World) (s : State)
  : list (string * list (string * option PriceEntry)) :=
  collected w (length (calls (foldl (after_check w) s initial_pairs)))
    (cycle_pairs w s) [].

Definition cycle_results (w : World) (s : State) : list Opportunity.t :=
  omap emitted (cycle_prices w s).

Definition cycle_state (w : World) (s : State) : State :=
  foldl (record w)
    (log_calls (cycle_pairs w s ≫= fetches) (foldl (after_check w) s initial_pairs))
    (cycle_results w s).

Definition cycle_response (w : World) (s : State) : Response.t :=
  let history := transaction_history (cycle_state w s) in
  {| Response.results :=
       match cycle_results w s with
       | [] => [simulated_result]
       | _ => cycle_results w s
       end;
     Response.performance :=
       {| total_roi :=
            match history with
            | [] => 0%Q
            | _ => py_sum (Transaction.roi <$> history)
            end;
          total_usd_operations :=
            match history with
            | [] => 0%Q
            | _ => py_sum (Transaction.usd_operation_value <$> history)
            end |};
     Response.transaction_history := history |}.

Inductive Operation :=
| GetSupportedPairs (pairs : list string)
| GetPrices (pairs : list string)
| CalculateArbitrage (prices : list (string * list (string * option PriceEntry)))
| GetDataApi.

(** The state an operation leaves. *)
Definition run_operation (w : World) (s : State) (op : Operation) : State :=
  match op with
  | GetSupportedPairs pairs => (get_supported_pairs w pairs s).2
  | GetPrices pairs => (get_prices w pairs s).2
  | CalculateArbitrage prices => (calculate_arbitrage w prices s).2
  | GetDataApi => (get_data_api w s).2
  end.

(** A state in which one pair is already known as unsupported. *)
Definition seeded_state : State :=
  {| transaction_history := []; unsupported_pairs := {["XRP/USDT"]}; calls := [] |}.

#[global] Instance Call_eq_dec : EqDecision Call.
Proof. solve_decision. Defined.

(** The field names of a JSON object. *)
Definition object_keys (j : Json) : list string :=
  match j with
  | JObject fields => fields.*1
  | _ => []
  end.

(** A marker field between two objects: a field that one of them carries
    and the other does not. *)
Definition marker_field (k : string) (placeholder real : Json) : Prop :=
  (k ∈ object_keys placeholder ∧ k ∉ object_keys real)
  ∨ (k ∉ object_keys placeholder ∧ k ∈ object_keys real).

(** A transaction recorded for an opportunity that some run of the
    arbitrage calculation returned. *)
Definition real_transaction (tx : Transaction.t) : Prop :=
  ∃ w prices s rs s' o timestamp,
    calculate_arbitrage w prices s = (Ok rs, s')
    ∧ o ∈ rs
    ∧ tx = transaction_of o timestamp.

(** The state after [n] calls of the endpoint. *)
Definition cycles (w : World) (n : nat) (s : State) : State :=
  Nat.iter n (λ s, (get_data_api w s).2) s.

(** A snapshot set, and a snapshot mapping, with every volume erased. *)
Definition snapshot_without_volume (pair_prices : list (string * option PriceEntry))
  : list (string * option PriceEntry) :=
  (λ kv : string * option PriceEntry,
     (kv.1, (λ entry : PriceEntry, {| last := last entry; volume := None |}) <$> kv.2))
  <$> pair_prices.

Definition without_volume (prices : list (string * list (string * option PriceEntry)))
  : list (string * list (string * option PriceEntry)) :=
  (λ item : string * list (string * option PriceEntry),
     (item.1, snapshot_without_volume item.2)) <$> prices.

(** A world whose exchanges list every candidate pair. *)
Definition recovered_world : World :=
  {| load_markets_at := λ _ _, Some initial_pairs;
     fetch_ticker_at := fetch_ticker_at steady_world;
     now_at := now_at steady_world |}.

(** The snapshot sets of a list of pairs, fetched one pair after the other
    from call number [n] on. *)
Fixpoint snapshots_from (w : World) (n : nat) (pairs : list string)
  : list (string * list (string * option PriceEntry)) :=
  match pairs with
  | [] => []
  | p :: ps =>
      (p, snapshot_from w n p exchanges) :: snapshots_from w (n + length exchanges) ps
  end.

(** The state after an outage: every candidate pair is marked unsupported. *)
Definition outage_state : State :=
  {| transaction_history := [];
     unsupported_pairs := list_to_set initial_pairs;
     calls := [] |}.

(** * Properties *)

(** ** The monad *)

Ltac unfold_monad :=
  unfold mbind, M_bind, mret, M_ret, raise, try_except in *.

Lemma for_each_app {A B} (body : B → A → M B) (l1 l2 : list A) (acc : B) (s : State) :
  for_each body (l1 ++ l2) acc s =
  match for_each body l1 acc s with
  | (Ok acc', s') => for_each body l2 acc' s'
  | (Raise e, s') => (Raise e, s')
  end.
Proof.
  revert acc s; induction l1 as [|x l1 IH]; intros acc s; simpl; [done|].
  unfold_monad. destruct (body acc x s) as [[acc'|e] s']; [apply IH | done].
Qed.

(** ** Dicts *)

Lemma dict_set_fresh {V} (k : string) (v : V) (d : list (string * V)) :
  k ∉ d.*1 → dict_set k v d = d ++ [(k, v)].
Proof.
  induction d as [|[k' v'] d IH]; simpl; [done|].
  intros Hk. apply not_elem_of_cons in Hk as [Hne Hk].
  rewrite bool_decide_eq_false_2 by congruence. by rewrite IH.
Qed.

Lemma dict_get_set_eq {V} (k : string) (v : V) (d : list (string * V)) :
  dict_get k (dict_set k v d) = Some v.
Proof.
  induction d as [|[k' v'] d IH]; simpl.
  - by rewrite bool_decide_eq_true_2.
  - case_bool_decide; simpl.
    + by rewrite bool_decide_eq_true_2.
    + by rewrite bool_decide_eq_false_2.
Qed.

Lemma dict_get_set_ne {V} (k k0 : string) (v : V) (d : list (string * V)) :
  k ≠ k0 → dict_get k0 (dict_set k v d) = dict_get k0 d.
Proof.
  intros Hne. induction d as [|[k' v'] d IH]; simpl.
  - by rewrite bool_decide_eq_false_2.
  - case_bool_decide; simpl; subst.
    + by rewrite !bool_decide_eq_false_2.
    + by rewrite IH.
Qed.

Lemma dict_keys_set {V} (k : string) (v : V) (d : list (string * V)) :
  (dict_set k v d).*1 = if bool_decide (k ∈ d.*1) then d.*1 else d.*1 ++ [k].
Proof.
  induction d as [|[k' v'] d IH]; csimpl; [done|].
  destruct (decide (k' = k)) as [->|Hne].
  - rewrite !bool_decide_eq_true_2; [done | set_solver | done].
  - rewrite (bool_decide_eq_false_2 (k' = k)) by done. csimpl. rewrite IH.
    destruct (decide (k ∈ d.*1)) as [Hin|Hin].
    + rewrite !bool_decide_eq_true_2; [done | set_solver | done].
    + rewrite !bool_decide_eq_false_2; [done | set_solver | done].
Qed.

Lemma dict_set_NoDup {V} (k : string) (v : V) (d : list (string * V)) :
  NoDup d.*1 → NoDup (dict_set k v d).*1.
Proof.
  intros Hd. rewrite dict_keys_set. case_bool_decide; [done|].
  apply NoDup_app. split_and!; [done | set_solver | apply NoDup_singleton].
Qed.

Lemma dict_get_Some_elem {V} (k : string) (v : V) (d : list (string * V)) :
  dict_get k d = Some v → (k, v) ∈ d.
Proof.
  induction d as [|[k' v'] d IH]; simpl; [done|].
  case_bool_decide; subst.
  - intros [= ->]. apply list_elem_of_here.
  - intros H'. apply list_elem_of_further. auto.
Qed.

Lemma dict_get_None {V} (k : string) (d : list (string * V)) :
  dict_get k d = None ↔ k ∉ d.*1.
Proof.
  induction d as [|[k' v'] d IH]; simpl; [set_solver|].
  case_bool_decide; subst; [set_solver|].
  rewrite IH. set_solver.
Qed.

(** ** Rational arithmetic *)

Lemma py_div_ok (a b : Q) (s : State) :
  ¬ (b == 0)%Q → py_div a b s = (Ok (a / b)%Q, s).
Proof.
  intros Hb. unfold py_div.
  destruct (Qeq_bool b 0) eqn:E; [|done].
  by apply Qeq_bool_iff in E.
Qed.

Lemma fold_left_Qplus (l : list Q) (a : Q) :
  (fold_left Qplus l a == a + foldr Qplus 0 l)%Q.
Proof.
  revert a; induction l as [|x l IH]; intros a; simpl; [ring|].
  rewrite IH. ring.
Qed.

Lemma py_sum_foldr (l : list Q) : (py_sum l == foldr Qplus 0 l)%Q.
Proof. unfold py_sum. rewrite fold_left_Qplus. ring. Qed.

Lemma py_len_pos {A} (l : list A) : l ≠ [] → (0 < py_len l)%Q.
Proof.
  intros Hl. unfold py_len. destruct l; [done|].
  unfold Qlt; simpl. lia.
Qed.

(** ** The arbitrage engine, pair by pair *)

Lemma fold_min_first_cheapest (d : list (string * Q)) (kv0 : string * Q) :
  first_cheapest (kv0 :: d)
    (fold_left (λ best x, if Qlt_le_dec x.2 best.2 then x else best) d kv0).
Proof.
  revert kv0; induction d as [|x d IH]; intros kv0; simpl.
  - exists [], []. by split_and!.
  - destruct (Qlt_le_dec x.2 kv0.2) as [Hlt|Hle].
    + destruct (IH x) as (l1 & l2 & Heq & H1 & H2).
      remember (fold_left _ d x) as r eqn:Hr. clear Hr IH.
      exists (kv0 :: l1), l2. split_and!; [by rewrite Heq | | done].
      constructor; [|done].
      destruct l1 as [|y l1]; simpl in Heq; injection Heq as Hx Hd.
      * by rewrite <- Hx.
      * apply Forall_cons in H1 as [H1 _]. rewrite <- Hx in H1. lra.
    + destruct (IH kv0) as (l1 & l2 & Heq & H1 & H2).
      remember (fold_left _ d kv0) as r eqn:Hr. clear Hr IH.
      destruct l1 as [|y l1]; simpl in Heq; injection Heq as Hx Hd.
      * exists [], (x :: l2). rewrite <- Hx in *.
        split_and!; [by rewrite Hd | done | by constructor].
      * apply Forall_cons in H1 as [Hy H1]. rewrite <- Hx in *.
        exists (kv0 :: x :: l1), l2. split_and!; [by rewrite Hd | | done].
        constructor; [done|]. constructor; [lra | done].
Qed.

Lemma first_cheapest_unique (d : list (string * Q)) (kv kv' : string * Q) :
  first_cheapest d kv → first_cheapest d kv' → kv = kv'.
Proof.
  intros (l1 & l2 & -> & H1 & H2) (l1' & l2' & Heq & H1' & H2').
  revert l1' Heq H1'. induction l1 as [|y l1 IH]; intros l1' Heq H1'.
  - destruct l1' as [|y' l1']; simpl in Heq; injection Heq as Hk Hl; [done|].
    apply Forall_cons in H1' as [Hlt _]. rewrite <- Hk in Hlt.
    assert (kv.2 <= kv'.2)%Q.
    { apply (proj1 (Forall_forall _ _) H2). rewrite Hl. set_solver. }
    lra.
  - apply Forall_cons in H1 as [Hy H1].
    destruct l1' as [|y' l1']; simpl in Heq; injection Heq as Hk Hl.
    + rewrite Hk in Hy.
      assert (kv'.2 <= kv.2)%Q.
      { apply (proj1 (Forall_forall _ _) H2'). rewrite <- Hl. set_solver. }
      lra.
    + apply Forall_cons in H1' as [_ H1']. by eapply IH.
Qed.

Lemma py_min_ok (d : list (string * Q)) (s : State) :
  d ≠ [] → ∃ kv, py_min d s = (Ok kv, s) ∧ first_cheapest d kv.
Proof.
  destruct d as [|kv0 d]; [done|]. intros _. simpl. unfold_monad.
  eexists; split; [done|]. apply fold_min_first_cheapest.
Qed.

Lemma elem_of_valid_prices_of pair_prices k p :
  (k, p) ∈ valid_prices_of pair_prices ↔ has_last pair_prices k p.
Proof.
  unfold valid_prices_of, has_last. rewrite list_elem_of_omap. split.
  - intros ([k' [e|]] & Hin & Hf); simpl in *; [|done].
    destruct (last e) eqn:E; simplify_eq. eauto.
  - intros (e & Hin & Hl). exists (k, Some e). split; [done|]. simpl. by rewrite Hl.
Qed.

Lemma elem_of_other_exchanges_prices_of valid_prices k p :
  (k, p) ∈ other_exchanges_prices_of valid_prices ↔
  (k, p) ∈ valid_prices ∧ k ≠ "binance".
Proof. unfold other_exchanges_prices_of. rewrite list_elem_of_filter. naive_solver. Qed.

(** [quote_pair] never raises and never touches the state; what it
    returns is fixed by the snapshot set alone. *)
Lemma quote_pair_run pair_prices s :
  let valid_prices := valid_prices_of pair_prices in
  let others := other_exchanges_prices_of valid_prices in
  match dict_get "binance" valid_prices with
  | None => quote_pair pair_prices s = (Ok None, s)
  | Some sell =>
      if bool_decide (others = []) then quote_pair pair_prices s = (Ok None, s)
      else ∃ buy, first_cheapest others buy ∧
           quote_pair pair_prices s =
           (Ok (Some {| buy_exchange := buy.1; buy_price := buy.2;
                        sell_exchange := "binance"; sell_price := sell;
                        adjusted_buy_price := buy.2 * (1 + transaction_fee + slippage);
                        adjusted_sell_price := sell * (1 - transaction_fee - slippage);
                        roi := roi_of buy.2 sell;
                        avg_price := py_sum valid_prices.*2 / py_len valid_prices;
                        spread := spread_of buy.2 sell
                                    (py_sum valid_prices.*2 / py_len valid_prices) |}), s)
  end.
Proof.
  intros valid_prices others. unfold quote_pair.
  fold valid_prices. fold others.
  destruct (dict_get "binance" valid_prices) as [sell|] eqn:Hb; [|done].
  case_bool_decide as Ho; [done|].
  destruct (py_min_ok others s Ho) as (buy & Hmin & Hfc).
  exists buy. split; [done|].
  assert (Hvalid : valid_prices ≠ []).
  { intros Hnil. rewrite Hnil in Hb. done. }
  pose proof (py_len_pos valid_prices Hvalid) as Hlen.
  unfold mbind at 1, M_bind at 1. rewrite Hmin.
  unfold roi_of, spread_of. cbv zeta.
  set (adjb := (buy.2 * (1 + transaction_fee + slippage))%Q).
  set (adjs := (sell * (1 - transaction_fee - slippage))%Q).
  set (avg := (py_sum valid_prices.*2 / py_len valid_prices)%Q).
  unfold mbind at 1, M_bind at 1.
  assert (Hroi : (if Qlt_le_dec 0 adjb
                  then q ← py_div (adjs - adjb) adjb; mret (q * 100)%Q
                  else mret 0%Q) s
                 = (Ok (if Qlt_le_dec 0 adjb
                        then ((adjs - adjb) / adjb * 100)%Q else 0%Q), s)).
  { destruct (Qlt_le_dec 0 adjb) as [Hpos|Hneg]; [|done].
    unfold mbind, M_bind. rewrite py_div_ok; [done | lra]. }
  rewrite Hroi. unfold mbind at 1, M_bind at 1.
  rewrite py_div_ok by lra. fold avg.
  unfold mbind at 1, M_bind at 1.
  assert (Hspread : (if Qlt_le_dec 0 avg
                     then q ← py_div (sell - buy.2) avg; mret (q * 100)%Q
                     else mret 0%Q) s
                    = (Ok (if Qlt_le_dec 0 avg
                           then ((sell - buy.2) / avg * 100)%Q else 0%Q), s)).
  { destruct (Qlt_le_dec 0 avg) as [Hpos|Hneg]; [|done].
    unfold mbind, M_bind. rewrite py_div_ok; [done | lra]. }
  rewrite Hspread. done.
Qed.

Lemma quote_pair_pure pair_prices s :
  quote_pair pair_prices s = (Ok (quote_of pair_prices), s).
Proof.
  unfold quote_of.
  pose proof (quote_pair_run pair_prices s) as Hs.
  pose proof (quote_pair_run pair_prices initial_state) as H0.
  cbv zeta in Hs, H0.
  destruct (dict_get "binance" (valid_prices_of pair_prices)) as [sell|].
  - case_bool_decide.
    + by rewrite Hs, H0.
    + destruct Hs as (buy & Hfc & ->). destruct H0 as (buy' & Hfc' & ->). simpl.
      by rewrite (first_cheapest_unique _ _ _ Hfc Hfc').
  - by rewrite Hs, H0.
Qed.

(** What a quote says about the snapshot set it was computed from. *)
Lemma quote_of_Some pair_prices q :
  quote_of pair_prices = Some q →
  let valid_prices := valid_prices_of pair_prices in
  dict_get "binance" valid_prices = Some (sell_price q)
  ∧ first_cheapest (other_exchanges_prices_of valid_prices) (buy_exchange q, buy_price q)
  ∧ sell_exchange q = "binance"
  ∧ adjusted_buy_price q = (buy_price q * (1 + transaction_fee + slippage))%Q
  ∧ adjusted_sell_price q = (sell_price q * (1 - transaction_fee - slippage))%Q
  ∧ roi q = roi_of (buy_price q) (sell_price q)
  ∧ avg_price q = (py_sum valid_prices.*2 / py_len valid_prices)%Q
  ∧ spread q = spread_of (buy_price q) (sell_price q) (avg_price q).
Proof.
  intros Hq. pose proof (quote_pair_run pair_prices initial_state) as H0.
  pose proof (quote_pair_pure pair_prices initial_state) as Hp.
  rewrite Hq in Hp. cbv zeta in *.
  destruct (dict_get "binance" (valid_prices_of pair_prices)) as [sell|];
    [|by rewrite Hp in H0].
  case_bool_decide; [by rewrite Hp in H0|].
  destruct H0 as ([k p] & Hfc & Hrun). rewrite Hp in Hrun.
  injection Hrun as ->. simpl. by split_and!.
Qed.

Lemma quote_of_None pair_prices :
  quote_of pair_prices = None ↔
  dict_get "binance" (valid_prices_of pair_prices) = None
  ∨ other_exchanges_prices_of (valid_prices_of pair_prices) = [].
Proof.
  pose proof (quote_pair_run pair_prices initial_state) as H0.
  pose proof (quote_pair_pure pair_prices initial_state) as Hp.
  cbv zeta in *.
  destruct (dict_get "binance" (valid_prices_of pair_prices)) as [sell|].
  - case_bool_decide as Ho.
    + rewrite Hp in H0. injection H0 as ->. naive_solver.
    + destruct H0 as (buy & _ & Hrun). rewrite Hp in Hrun. injection Hrun as ->.
      naive_solver.
  - rewrite Hp in H0. injection H0 as ->. naive_solver.
Qed.

Lemma evaluate_pair_run w results item s :
  evaluate_pair w results item s =
  match emitted item with
  | Some o => (Ok (results ++ [o]), record w s o)
  | None => (Ok results, s)
  end.
Proof.
  unfold evaluate_pair, emitted.
  unfold mbind at 1, M_bind at 1. rewrite quote_pair_pure.
  destruct (quote_of item.2) as [q|]; [|done].
  destruct (Qle_bool (min_profit_margin * 100) (roi q)); [|done].
  unfold mbind at 1, M_bind at 1. rewrite py_div_ok by (intros H; discriminate H).
  done.
Qed.

Lemma calculate_arbitrage_loop w prices acc s :
  for_each (evaluate_pair w) prices acc s =
  (Ok (acc ++ omap emitted prices), foldl (record w) s (omap emitted prices)).
Proof.
  revert acc s; induction prices as [|item prices IH]; intros acc s; simpl.
  - unfold_monad. by rewrite app_nil_r.
  - unfold mbind, M_bind. rewrite evaluate_pair_run.
    destruct (emitted item) as [o|]; simpl.
    + rewrite IH. by rewrite <- app_assoc.
    + apply IH.
Qed.

Lemma calculate_arbitrage_run w prices s :
  calculate_arbitrage w prices s =
  (Ok (omap emitted prices), foldl (record w) s (omap emitted prices)).
Proof. unfold calculate_arbitrage. by rewrite calculate_arbitrage_loop. Qed.

Lemma record_all_unsupported w s os :
  unsupported_pairs (foldl (record w) s os) = unsupported_pairs s.
Proof. revert s; induction os as [|o os IH]; intros s; simpl; [done|]. by rewrite IH. Qed.

Lemma record_all_calls w s os :
  calls (foldl (record w) s os) = calls s ++ replicate (length os) Now.
Proof.
  revert s; induction os as [|o os IH]; intros s; simpl.
  - by rewrite app_nil_r.
  - rewrite IH. simpl. by rewrite <- app_assoc.
Qed.

Lemma record_all_history w s os :
  transaction_history (foldl (record w) s os) =
  transaction_history s ++ stamped w (length (calls s)) os.
Proof.
  unfold stamped. revert s; induction os as [|o os IH]; intros s; simpl.
  - by rewrite app_nil_r.
  - rewrite IH. simpl. rewrite <- app_assoc. simpl. do 2 f_equal.
    + by rewrite Nat.add_0_r.
    + apply imap_ext. intros i x _. simpl. rewrite length_app. simpl.
      do 2 f_equal. lia.
Qed.

Lemma valid_prices_of_lasts pair_prices :
  (valid_prices_of pair_prices).*2 = reported_lasts pair_prices.
Proof.
  unfold valid_prices_of, reported_lasts.
  induction pair_prices as [|[k [e|]] l IH]; csimpl; [done| |done].
  destruct (last e); csimpl; by rewrite ?IH.
Qed.

Lemma avg_price_mean pair_prices :
  (py_sum (valid_prices_of pair_prices).*2 / py_len (valid_prices_of pair_prices)
   == mean (reported_lasts pair_prices))%Q.
Proof.
  unfold mean, py_len. rewrite <- valid_prices_of_lasts, length_fmap.
  by rewrite py_sum_foldr.
Qed.

Lemma omap_app_inv {A B} (f : A → option B) (l : list A) (l1' l2' : list B) (y : B) :
  omap f l = l1' ++ y :: l2' →
  ∃ l1 x l2, l = l1 ++ x :: l2 ∧ f x = Some y ∧ omap f l1 = l1' ∧ omap f l2 = l2'.
Proof.
  revert l1'; induction l as [|a l IH]; intros l1' Heq; csimpl in *.
  - by destruct l1'.
  - destruct (f a) as [b|] eqn:Hfa; csimpl in *.
    + destruct l1' as [|b' l1']; simpl in Heq; injection Heq as Hb Hl.
      * exists [], a, l. subst. by split_and!.
      * destruct (IH _ Hl) as (l1 & x & l2 & -> & Hx & H1 & H2).
        exists (a :: l1), x, l2. csimpl. rewrite Hfa. csimpl. subst. by split_and!.
    + destruct (IH _ Heq) as (l1 & x & l2 & -> & Hx & H1 & H2).
      exists (a :: l1), x, l2. csimpl. rewrite Hfa. by split_and!.
Qed.

Lemma filter_app_inv {A} (P : A → Prop) `{!∀ x, Decision (P x)}
    (l l1' l2' : list A) (y : A) :
  filter P l = l1' ++ y :: l2' →
  ∃ l1 l2, l = l1 ++ y :: l2 ∧ P y ∧ filter P l1 = l1' ∧ filter P l2 = l2'.
Proof.
  revert l1'; induction l as [|a l IH]; intros l1' Heq.
  - by destruct l1'.
  - rewrite filter_cons in Heq. destruct (decide (P a)) as [Ha|Ha].
    + destruct l1' as [|b' l1']; simpl in Heq; injection Heq as Hb Hl.
      * exists [], l. subst. by split_and!.
      * destruct (IH _ Hl) as (l1 & l2 & -> & Hy & H1 & H2).
        exists (a :: l1), l2. rewrite filter_cons_True by done. subst. by split_and!.
    + destruct (IH _ Heq) as (l1 & l2 & -> & Hy & H1 & H2).
      exists (a :: l1), l2. rewrite filter_cons_False by done. by split_and!.
Qed.

(** In terms of the snapshot set itself: the buy entry comes first among
    the cheapest entries of the exchanges other than the reference one. *)
Lemma first_cheapest_snapshot pair_prices k p :
  first_cheapest (other_exchanges_prices_of (valid_prices_of pair_prices)) (k, p) →
  k ≠ "binance"
  ∧ (∀ k' p', k' ≠ "binance" → has_last pair_prices k' p' → (p <= p')%Q)
  ∧ ∃ l1 entry l2, pair_prices = l1 ++ (k, Some entry) :: l2
      ∧ last entry = Some p
      ∧ ∀ k' p', k' ≠ "binance" → has_last l1 k' p' → (p < p')%Q.
Proof.
  intros (o1 & o2 & Heq & H1 & H2).
  assert (Hin : (k, p) ∈ other_exchanges_prices_of (valid_prices_of pair_prices)).
  { rewrite Heq. set_solver. }
  apply elem_of_other_exchanges_prices_of in Hin as [_ Hk].
  split_and!; [done | |].
  - intros k' p' Hk' Hl. apply elem_of_valid_prices_of in Hl.
    assert (Hin' : (k', p') ∈ other_exchanges_prices_of (valid_prices_of pair_prices)).
    { by apply elem_of_other_exchanges_prices_of. }
    rewrite Heq in Hin'. apply elem_of_app in Hin' as [Hin'|Hin'].
    + apply Qlt_le_weak. by apply (proj1 (Forall_forall _ _) H1 (k', p')).
    + apply elem_of_cons in Hin' as [[= -> ->]|Hin']; [apply Qle_refl|].
      by apply (proj1 (Forall_forall _ _) H2 (k', p')).
  - unfold other_exchanges_prices_of in Heq.
    apply filter_app_inv in Heq as (v1 & v2 & Hv & _ & Hv1 & _).
    unfold valid_prices_of in Hv.
    apply omap_app_inv in Hv as (l1 & [k0 v0] & l2 & -> & Hx & Hl1 & _).
    simpl in Hx. destruct v0 as [entry|]; [|done].
    destruct (last entry) as [p0|] eqn:Hlast; [|done]. injection Hx as -> ->.
    exists l1, entry, l2. split_and!; [done | done |].
    intros k' p' Hk' Hl. apply elem_of_valid_prices_of in Hl.
    unfold valid_prices_of in Hl. rewrite Hl1 in Hl.
    apply (proj1 (Forall_forall _ _) H1 (k', p')).
    rewrite <- Hv1. apply list_elem_of_filter. by split.
Qed.

Lemma elem_of_emitted_inv (prices : list (string * list (string * option PriceEntry)))
    (o : Opportunity.t) :
  o ∈ omap emitted prices →
  ∃ pair_prices q,
    (Opportunity.pair o, pair_prices) ∈ prices
    ∧ quote_of pair_prices = Some q
    ∧ (min_profit_margin * 100 <= roi q)%Q
    ∧ o = opportunity_of (Opportunity.pair o) q (fixed_investment * (1 + roi q / 100)).
Proof.
  rewrite list_elem_of_omap. intros ([pair pair_prices] & Hin & He).
  unfold emitted in He. simpl in He.
  destruct (quote_of pair_prices) as [q|] eqn:Hq; [|done].
  destruct (Qle_bool _ _) eqn:Hle; [|done]. injection He as <-.
  exists pair_prices, q. simpl. split_and!; [done | done | | done].
  by apply Qle_bool_iff.
Qed.

Lemma quote_pair_Some_inv pair_prices s s' q :
  quote_pair pair_prices s = (Ok (Some q), s') → quote_of pair_prices = Some q ∧ s' = s.
Proof. rewrite quote_pair_pure. by intros [= -> ->]. Qed.

(** ** The cost model *)

(** C3. For every pair the engine evaluates (that is, does not skip), the
    adjusted buy price is [buy_price * (1 + fee + slippage)], the adjusted
    sell price is [sell_price * (1 - fee - slippage)], the ROI is
    [100 * (adjusted sell - adjusted buy) / adjusted buy] when the adjusted
    buy price is positive and 0 otherwise, the average price is the
    arithmetic mean of the last prices of all exchanges that reported one,
    and the spread is [100 * (sell - buy) / average] when the average is
    positive and 0 otherwise. The evaluation never raises (in particular no
    [ZeroDivisionError]) and leaves the state alone. *)
Theorem quote_pair_cost_model (pair_prices : list (string * option PriceEntry)) (s : State) :
  (∃ r, quote_pair pair_prices s = (Ok r, s))
  ∧ ∀ q s', quote_pair pair_prices s = (Ok (Some q), s') →
      (adjusted_buy_price q == buy_price q * (1 + transaction_fee + slippage))%Q
    ∧ (adjusted_sell_price q == sell_price q * (1 - transaction_fee - slippage))%Q
    ∧ ((0 < adjusted_buy_price q)%Q →
       (roi q == 100 * (adjusted_sell_price q - adjusted_buy_price q)
                 / adjusted_buy_price q)%Q)
    ∧ (¬ (0 < adjusted_buy_price q)%Q → (roi q == 0)%Q)
    ∧ (avg_price q == mean (reported_lasts pair_prices))%Q
    ∧ ((0 < avg_price q)%Q →
       (spread q == 100 * (sell_price q - buy_price q) / avg_price q)%Q)
    ∧ (¬ (0 < avg_price q)%Q → (spread q == 0)%Q).
Proof.
  split; [exists (quote_of pair_prices); apply quote_pair_pure|].
  intros q s' Hrun. apply quote_pair_Some_inv in Hrun as [Hq _].
  apply quote_of_Some in Hq as (_ & _ & _ & Hab & Has & Hroi & Havg & Hspread).
  cbv zeta in *. split_and!.
  - by rewrite Hab.
  - by rewrite Has.
  - intros Hpos. rewrite Hroi. unfold roi_of. cbv zeta. rewrite <- Hab, <- Has.
    destruct (Qlt_le_dec 0 (adjusted_buy_price q)) as [_|Hle]; [|lra].
    field. lra.
  - intros Hneg. rewrite Hroi. unfold roi_of. cbv zeta. rewrite <- Hab.
    destruct (Qlt_le_dec 0 (adjusted_buy_price q)) as [Hpos|_]; [done|reflexivity].
  - rewrite Havg. apply avg_price_mean.
  - intros Hpos. rewrite Hspread. unfold spread_of.
    destruct (Qlt_le_dec 0 (avg_price q)) as [_|Hle]; [|lra].
    field. lra.
  - intros Hneg. rewrite Hspread. unfold spread_of.
    destruct (Qlt_le_dec 0 (avg_price q)) as [Hpos|_]; [done|reflexivity].
Qed.

Lemma quote_pair_cost_model_witness :
  ∃ q, quote_pair scenario_pair_prices initial_state = (Ok (Some q), initial_state)
       ∧ (0 < adjusted_buy_price q)%Q
       ∧ (0 < avg_price q)%Q
       ∧ (roi q == 100 * (adjusted_sell_price q - adjusted_buy_price q)
                   / adjusted_buy_price q)%Q
       ∧ (spread q == 100 * (sell_price q - buy_price q) / avg_price q)%Q
       ∧ (avg_price q == 3010)%Q.
Proof.
  eexists. split; [vm_compute; reflexivity|].
  split; [reflexivity|]. split; [reflexivity|].
  destruct (proj2 (quote_pair_cost_model scenario_pair_prices initial_state) _ _ eq_refl)
    as (_ & _ & Hroi & _ & Havg & Hspread & _).
  split; [apply Hroi; reflexivity|].
  split; [apply Hspread; reflexivity|].
  rewrite Havg. reflexivity.
Defined.

(** ** Buy and sell sides *)

(** C4. Every opportunity returned by the engine sells on the reference
    exchange ["binance"] at its last price and buys on another exchange at
    that exchange's last price, which is the least last price among the
    exchanges other than the reference one; among several exchanges at that
    least price the first in the iteration order of the snapshot set is
    taken. The returned list depends on the snapshot mapping only: any two
    evaluations of the same mapping, whatever the state and the clock,
    return the same opportunities. *)
Theorem calculate_arbitrage_sides (w : World)
    (prices : list (string * list (string * option PriceEntry)))
    (s s' : State) (rs : list Opportunity.t) (o : Opportunity.t) :
  calculate_arbitrage w prices s = (Ok rs, s') →
  o ∈ rs →
  (∃ pair_prices,
      (Opportunity.pair o, pair_prices) ∈ prices
      ∧ Opportunity.sell_exchange o = "binance"
      ∧ has_last pair_prices "binance" (Opportunity.sell_price o)
      ∧ Opportunity.buy_exchange o ≠ "binance"
      ∧ has_last pair_prices (Opportunity.buy_exchange o) (Opportunity.buy_price o)
      ∧ (∀ k p, k ≠ "binance" → has_last pair_prices k p →
                (Opportunity.buy_price o <= p)%Q)
      ∧ ∃ before entry after,
          pair_prices = before ++ (Opportunity.buy_exchange o, Some entry) :: after
          ∧ last entry = Some (Opportunity.buy_price o)
          ∧ ∀ k p, k ≠ "binance" → has_last before k p →
                   (Opportunity.buy_price o < p)%Q)
  ∧ ∀ w2 s2, (calculate_arbitrage w2 prices s2).1 = Ok rs.
Proof.
  rewrite calculate_arbitrage_run. intros [= <- <-] Hin. split.
  - apply elem_of_emitted_inv in Hin as (pair_prices & q & Hp & Hq & _ & ->).
    simpl in Hp. exists pair_prices. simpl.
    apply quote_of_Some in Hq as (Hsell & Hbuy & Hse & _). cbv zeta in *.
    apply first_cheapest_snapshot in Hbuy as (Hne & Hmin & l1 & e & l2 & Hl & He & Hfirst).
    split_and!; [done | done | | done | | done | by exists l1, e, l2].
    + apply elem_of_valid_prices_of. by apply dict_get_Some_elem.
    + exists e. split; [|done]. rewrite Hl. set_solver.
  - intros w2 s2. by rewrite calculate_arbitrage_run.
Qed.

Lemma calculate_arbitrage_sides_witness :
  calculate_arbitrage silent_world [("ETH/USDT", tie_pair_prices)] initial_state
  = (Ok [tie_opportunity],
     record silent_world initial_state tie_opportunity)
  ∧ tie_opportunity ∈ [tie_opportunity]
  ∧ Opportunity.sell_exchange tie_opportunity = "binance"
  ∧ Opportunity.buy_exchange tie_opportunity = "kraken"
  ∧ has_last tie_pair_prices "coinbase" (Opportunity.buy_price tie_opportunity)
  ∧ ∀ w2 s2,
      (calculate_arbitrage w2 [("ETH/USDT", tie_pair_prices)] s2).1 = Ok [tie_opportunity].
Proof.
  assert (Hrun : calculate_arbitrage silent_world [("ETH/USDT", tie_pair_prices)]
                   initial_state
                 = (Ok [tie_opportunity],
                    record silent_world initial_state tie_opportunity))
    by (vm_compute; reflexivity).
  assert (Hin : tie_opportunity ∈ [tie_opportunity]) by apply list_elem_of_here.
  destruct (calculate_arbitrage_sides _ _ _ _ _ _ Hrun Hin) as [_ Hdet].
  split_and!; [exact Hrun | exact Hin | reflexivity | reflexivity | | exact Hdet].
  exists {| last := Some 3000%Q; volume := None |}. split; [|reflexivity].
  unfold tie_pair_prices, entry_at. set_solver.
Defined.

(** ** When a pair is quoted *)



Lemma quote_of_is_Some pair_prices :
  is_Some (quote_of pair_prices) ↔
  (∃ p, has_last pair_prices "binance" p)
  ∧ (∃ k p, k ≠ "binance" ∧ has_last pair_prices k p).
Proof.
  rewrite <- not_eq_None_Some, quote_of_None. split.
  - intros Hn. split.
    + destruct (dict_get "binance" (valid_prices_of pair_prices)) as [p|] eqn:Hb;
        [|naive_solver].
      exists p. apply elem_of_valid_prices_of. by apply dict_get_Some_elem.
    + destruct (other_exchanges_prices_of (valid_prices_of pair_prices))
        as [|[k p] l] eqn:Ho; [naive_solver|].
      assert (Hin : (k, p) ∈ other_exchanges_prices_of (valid_prices_of pair_prices)).
      { rewrite Ho. apply list_elem_of_here. }
      apply elem_of_other_exchanges_prices_of in Hin as [Hin Hk].
      exists k, p. split; [done|]. by apply elem_of_valid_prices_of.
  - intros [[p Hp] (k & p' & Hk & Hp')] [Hb|Ho].
    + apply dict_get_None in Hb. destruct Hb.
      apply elem_of_valid_prices_of in Hp. apply list_elem_of_fmap. by exists ("binance", p).
    + apply elem_of_valid_prices_of in Hp'.
      assert (Hin : (k, p') ∈ other_exchanges_prices_of (valid_prices_of pair_prices)).
      { by apply elem_of_other_exchanges_prices_of. }
      rewrite Ho in Hin. by apply elem_of_nil in Hin.
Qed.

(** ** Invariants of the emitted opportunities *)

Lemma roi_threshold_positive (buy sell : Q) :
  (min_profit_margin * 100 <= roi_of buy sell)%Q → (0 < buy)%Q ∧ (0 < sell)%Q.
Proof.
  unfold roi_of, min_profit_margin, transaction_fee, slippage. cbv zeta.
  set (adjb := (buy * (1 + 0.001 + 0.0005))%Q).
  set (adjs := (sell * (1 - 0.001 - 0.0005))%Q).
  destruct (Qlt_le_dec 0 adjb) as [Hpos|Hneg]; [|intros H; exfalso; lra].
  intros Hle.
  assert (Hr : ((adjs - adjb) / adjb * adjb == adjs - adjb)%Q) by (field; lra).
  set (r := ((adjs - adjb) / adjb)%Q) in *.
  assert (Hrpos : (0 < r)%Q) by lra.
  assert (Hprod : (0 < r * adjb)%Q) by (apply Qmult_lt_0_compat; done).
  subst adjb adjs. split; lra.
Qed.

Lemma emitted_invariants (prices : list (string * list (string * option PriceEntry)))
    (o : Opportunity.t) :
  o ∈ omap emitted prices →
  (min_profit_margin * 100 <= Opportunity.roi o)%Q
  ∧ (0 < Opportunity.buy_price o)%Q
  ∧ (0 < Opportunity.sell_price o)%Q
  ∧ ∃ pair_prices, (Opportunity.pair o, pair_prices) ∈ prices
      ∧ (Opportunity.avg_price o == mean (reported_lasts pair_prices))%Q.
Proof.
  intros Hin. apply elem_of_emitted_inv in Hin as (pp & q & Hp & Hq & Hle & ->).
  simpl in *. apply quote_of_Some in Hq as (_ & _ & _ & _ & _ & Hroi & Havg & _).
  cbv zeta in *. rewrite Hroi in Hle.
  destruct (roi_threshold_positive _ _ Hle) as [Hb Hs].
  split_and!; [by rewrite Hroi | done | done |].
  exists pp. split; [done|]. rewrite Havg. apply avg_price_mean.
Qed.

(** C6. Every opportunity the engine returns, and every transaction it
    appends to the ledger, has an ROI of at least [min_profit_margin * 100],
    a strictly positive buy price and a strictly positive sell price, and
    an average price that is the mean of the last prices of the exchanges
    that reported one for its pair. *)
Theorem calculate_arbitrage_invariants (w : World)
    (prices : list (string * list (string * option PriceEntry)))
    (s s' : State) (rs : list Opportunity.t) :
  calculate_arbitrage w prices s = (Ok rs, s') →
  Forall (λ o,
      (min_profit_margin * 100 <= Opportunity.roi o)%Q
      ∧ (0 < Opportunity.buy_price o)%Q
      ∧ (0 < Opportunity.sell_price o)%Q
      ∧ ∃ pair_prices, (Opportunity.pair o, pair_prices) ∈ prices
          ∧ (Opportunity.avg_price o == mean (reported_lasts pair_prices))%Q) rs
  ∧ ∃ txs, transaction_history s' = transaction_history s ++ txs
      ∧ length txs = length rs
      ∧ Forall (λ tx,
          (min_profit_margin * 100 <= Transaction.roi tx)%Q
          ∧ (0 < Transaction.buy_price tx)%Q
          ∧ (0 < Transaction.sell_price tx)%Q
          ∧ ∃ pair_prices, (Transaction.pair tx, pair_prices) ∈ prices
              ∧ (Transaction.avg_price tx == mean (reported_lasts pair_prices))%Q) txs.
Proof.
  rewrite calculate_arbitrage_run. intros [= <- <-]. split.
  - apply Forall_forall. intros o Ho. by apply emitted_invariants.
  - exists (stamped w (length (calls s)) (omap emitted prices)).
    split; [apply record_all_history|]. split; [apply length_imap|].
    apply Forall_forall. intros tx Htx. unfold stamped in Htx.
    apply elem_of_lookup_imap in Htx as (i & o & -> & Hi).
    apply list_elem_of_lookup_2 in Hi. simpl. by apply emitted_invariants.
Qed.

Lemma calculate_arbitrage_invariants_witness :
  calculate_arbitrage silent_world [("ETH/USDT", scenario_pair_prices)] initial_state
  = (Ok [scenario_opportunity], record silent_world initial_state scenario_opportunity)
  ∧ (0 < Opportunity.buy_price scenario_opportunity)%Q
  ∧ (0 < Opportunity.sell_price scenario_opportunity)%Q
  ∧ (min_profit_margin * 100 <= Opportunity.roi scenario_opportunity)%Q.
Proof.
  assert (Hrun : calculate_arbitrage silent_world [("ETH/USDT", scenario_pair_prices)]
                   initial_state
                 = (Ok [scenario_opportunity],
                    record silent_world initial_state scenario_opportunity))
    by (vm_compute; reflexivity).
  destruct (calculate_arbitrage_invariants _ _ _ _ _ Hrun) as [Hrs _].
  apply Forall_cons in Hrs as [(Hroi & Hb & Hs & _) _].
  by split_and!.
Defined.

(** ** Which pairs are emitted *)

Lemma emitted_roi item o :
  emitted item = Some o →
  Opportunity.roi o = roi_of (Opportunity.buy_price o) (Opportunity.sell_price o).
Proof.
  unfold emitted. destruct (quote_of item.2) as [q|] eqn:Hq; [|done].
  destruct (Qle_bool _ _); [|done]. intros [= <-]. simpl.
  by apply quote_of_Some in Hq as (_ & _ & _ & _ & _ & Hroi & _).
Qed.

Lemma scenario_pair_prices_lasts (k : string) (p : Q) :
  has_last scenario_pair_prices k p →
  (k = "kraken" ∧ (p == 3000)%Q) ∨ (k = "binance" ∧ (p == 3020)%Q).
Proof.
  unfold has_last, scenario_pair_prices, entry_at.
  intros (e & Hin & Hl).
  apply elem_of_cons in Hin as [Hin|Hin].
  { injection Hin as -> ->. injection Hl as <-. left. by split. }
  apply elem_of_cons in Hin as [Hin|Hin].
  { injection Hin as -> ->. injection Hl as <-. right. by split. }
  by apply elem_of_nil in Hin.
Qed.




(** ** The 3000 / 3020 scenario *)

Lemma roi_of_3000_3020 (buy sell : Q) :
  (buy == 3000)%Q → (sell == 3020)%Q → (roi_of buy sell == 1097 / 3004.5)%Q.
Proof.
  intros Hb Hs. unfold roi_of, transaction_fee, slippage. cbv zeta.
  destruct (Qlt_le_dec 0 (buy * (1 + 0.001 + 0.0005))) as [_|Hneg]; [|exfalso; lra].
  rewrite Hb, Hs. reflexivity.
Qed.

(** C2, as the code has it. When one exchange other than the reference
    one reports 3000 and the reference exchange reports 3020 (and no other
    last price is reported), the adjusted buy price is about 3004.5, the
    adjusted sell price is about 3015.47 and the ROI is about 0.365
    percent (each within half a unit of its last digit); the ROI reaches
    the threshold [min_profit_margin * 100], that is 0.2, and the engine
    returns exactly one opportunity, buying on that exchange and selling on
    the reference exchange. *)
Theorem scenario_3000_3020 (w : World) (pair A : string)
    (pair_prices : list (string * option PriceEntry)) (s : State) :
  A ≠ "binance" →
  (∃ p, has_last pair_prices A p) →
  (∃ p, has_last pair_prices "binance" p) →
  (∀ k p, has_last pair_prices k p →
          (k = A ∧ (p == 3000)%Q) ∨ (k = "binance" ∧ (p == 3020)%Q)) →
  ∃ q o,
    quote_pair pair_prices s = (Ok (Some q), s)
    ∧ approx 0.005 (adjusted_buy_price q) 3004.5
    ∧ approx 0.005 (adjusted_sell_price q) 3015.47
    ∧ approx 0.0005 (roi q) 0.365
    ∧ (min_profit_margin * 100 <= roi q)%Q
    ∧ (0.2 <= roi q)%Q
    ∧ (calculate_arbitrage w [(pair, pair_prices)] s).1 = Ok [o]
    ∧ Opportunity.pair o = pair
    ∧ Opportunity.buy_exchange o = A
    ∧ Opportunity.sell_exchange o = "binance"
    ∧ Opportunity.roi o = roi q.
Proof.
  intros HA [pa Hpa] Href Hvalid.
  assert (Hsome : is_Some (quote_of pair_prices)).
  { apply quote_of_is_Some. split; [done|]. by exists A, pa. }
  destruct Hsome as [q Hq].
  pose proof (quote_of_Some _ _ Hq) as (Hsell & Hbuy & Hse & Hab & Has & Hroi & _).
  cbv zeta in *.
  assert (Hs : (sell_price q == 3020)%Q).
  { apply dict_get_Some_elem, elem_of_valid_prices_of, Hvalid in Hsell.
    destruct Hsell as [[Heq _]|[_ H]]; [by destruct HA | done]. }
  assert (Hb : buy_exchange q = A ∧ (buy_price q == 3000)%Q).
  { destruct Hbuy as (l1 & l2 & Heq & _).
    assert (Hin : (buy_exchange q, buy_price q)
                  ∈ other_exchanges_prices_of (valid_prices_of pair_prices)).
    { rewrite Heq. set_solver. }
    apply elem_of_other_exchanges_prices_of in Hin as [Hin Hne].
    apply elem_of_valid_prices_of, Hvalid in Hin. destruct Hin as [H|[H _]]; done. }
  destruct Hb as [Hbe Hb].
  assert (Hr : (roi q == 1097 / 3004.5)%Q).
  { rewrite Hroi. by apply roi_of_3000_3020. }
  assert (Hle : (min_profit_margin * 100 <= roi q)%Q).
  { rewrite Hr. by vm_compute. }
  exists q, (opportunity_of pair q (fixed_investment * (1 + roi q / 100))).
  split_and!.
  - rewrite quote_pair_pure. by rewrite Hq.
  - unfold approx. rewrite Hab, Hb. unfold transaction_fee, slippage.
    apply Qabs_Qle_condition. split; by vm_compute.
  - unfold approx. rewrite Has, Hs. unfold transaction_fee, slippage.
    apply Qabs_Qle_condition. split; by vm_compute.
  - unfold approx. rewrite Hr. apply Qabs_Qle_condition. split; by vm_compute.
  - done.
  - rewrite Hr. by vm_compute.
  - rewrite calculate_arbitrage_run. simpl. unfold emitted. simpl. rewrite Hq.
    by rewrite (proj2 (Qle_bool_iff _ _) Hle).
  - done.
  - done.
  - done.
  - done.
Qed.

Lemma scenario_3000_3020_witness :
  "kraken" ≠ "binance"
  ∧ has_last scenario_pair_prices "kraken" 3000
  ∧ has_last scenario_pair_prices "binance" 3020
  ∧ ∃ q o,
      quote_pair scenario_pair_prices initial_state = (Ok (Some q), initial_state)
      ∧ approx 0.005 (adjusted_buy_price q) 3004.5
      ∧ approx 0.005 (adjusted_sell_price q) 3015.47
      ∧ approx 0.0005 (roi q) 0.365
      ∧ (min_profit_margin * 100 <= roi q)%Q
      ∧ (0.2 <= roi q)%Q
      ∧ (calculate_arbitrage silent_world [("ETH/USDT", scenario_pair_prices)]
           initial_state).1 = Ok [o]
      ∧ Opportunity.pair o = "ETH/USDT"
      ∧ Opportunity.buy_exchange o = "kraken"
      ∧ Opportunity.sell_exchange o = "binance"
      ∧ Opportunity.roi o = roi q.
Proof.
  assert (Hne : "kraken" ≠ "binance") by discriminate.
  assert (Hk : has_last scenario_pair_prices "kraken" 3000).
  { exists {| last := Some 3000%Q; volume := None |}.
    split; [apply list_elem_of_here | reflexivity]. }
  assert (Hb : has_last scenario_pair_prices "binance" 3020).
  { exists {| last := Some 3020%Q; volume := None |}.
    split; [apply list_elem_of_further, list_elem_of_here | reflexivity]. }
  split_and!; [exact Hne | exact Hk | exact Hb |].
  exact (scenario_3000_3020 silent_world "ETH/USDT" "kraken" scenario_pair_prices
           initial_state Hne (ex_intro _ _ Hk) (ex_intro _ _ Hb)
           scenario_pair_prices_lasts).
Defined.

(** C2, as the spec words it, fails: on this input the adjusted sell price
    is about 3015.47, more than 1 away from the 3016.49 of the spec, and
    the ROI is more than 0.03 away from its 0.399. *)
Lemma scenario_spec_values_off :
  ∃ q, quote_pair scenario_pair_prices initial_state = (Ok (Some q), initial_state)
       ∧ approx 0.005 (adjusted_sell_price q) 3015.47
       ∧ ¬ approx 1 (adjusted_sell_price q) 3016.49
       ∧ ¬ approx 0.03 (roi q) 0.399.
Proof.
  eexists. split; [vm_compute; reflexivity|]. simpl. unfold approx.
  split; [apply Qabs_Qle_condition; split; by vm_compute|].
  split; intros H; apply Qabs_Qle_condition in H as [H1 H2];
    vm_compute in H1; by apply H1.
Qed.

(** ** The eligibility filter *)

Lemma supported_exchanges_loop w pair es acc s :
  for_each (λ supported_exchanges exchange_name,
      try_except
        (markets ← load_markets w exchange_name;
         if bool_decide (pair ∈ markets)
         then mret (supported_exchanges ++ [exchange_name])
         else mret supported_exchanges)
        (λ _, mret supported_exchanges)) es acc s
  = (Ok (acc ++ listing_from w (length (calls s)) pair es),
     log_calls (LoadMarkets <$> es) s).
Proof.
  revert acc s; induction es as [|e es IH]; intros acc s; simpl.
  - unfold_monad. rewrite app_nil_r. destruct s. unfold log_calls. simpl.
    by rewrite app_nil_r.
  - unfold mbind at 1, M_bind at 1. unfold try_except at 1.
    unfold mbind at 1, M_bind at 1. unfold load_markets, lists_at.
    assert (Hlog : ∀ acc',
      for_each (λ supported_exchanges exchange_name,
          try_except
            (markets ← load_markets w exchange_name;
             if bool_decide (pair ∈ markets)
             then mret (supported_exchanges ++ [exchange_name])
             else mret supported_exchanges)
            (λ _, mret supported_exchanges)) es acc' (log_call (LoadMarkets e) s)
      = (Ok (acc' ++ listing_from w (S (length (calls s))) pair es),
         log_calls (LoadMarkets <$> (e :: es)) s)).
    { intros acc'. rewrite IH. unfold log_calls, log_call. simpl.
      rewrite length_app. simpl. rewrite Nat.add_1_r.
      by rewrite <- app_assoc. }
    destruct (load_markets_at w (length (calls s)) e) as [markets|].
    + destruct (bool_decide (pair ∈ markets)); unfold mret at 1, M_ret at 1.
      * rewrite Hlog. by rewrite <- app_assoc.
      * rewrite Hlog. done.
    + unfold mret at 1, M_ret at 1. rewrite Hlog. done.
Qed.

Lemma supported_exchanges_of_run w pair s :
  supported_exchanges_of w pair s
  = (Ok (listing_from w (length (calls s)) pair exchanges),
     log_calls (LoadMarkets <$> exchanges) s).
Proof. unfold supported_exchanges_of. by rewrite supported_exchanges_loop. Qed.

Lemma check_pair_run w acc pair s :
  check_pair w acc pair s
  = (Ok (if keeps w s pair then acc ++ [pair] else acc), after_check w s pair).
Proof.
  unfold check_pair, keeps, after_check.
  unfold mbind at 1, M_bind at 1. unfold get_unsupported_pairs.
  destruct (bool_decide (pair ∈ unsupported_pairs s)); cbn [negb andb]; [done|].
  unfold mbind at 1, M_bind at 1. rewrite supported_exchanges_of_run.
  by destruct (Nat.leb 2 _).
Qed.

Lemma get_supported_pairs_loop w pairs acc s :
  for_each (check_pair w) pairs acc s
  = (Ok (acc ++ kept w s pairs), foldl (after_check w) s pairs).
Proof.
  revert acc s; induction pairs as [|p ps IH]; intros acc s; simpl.
  - unfold_monad. by rewrite app_nil_r.
  - unfold mbind, M_bind. rewrite check_pair_run, IH.
    destruct (keeps w s p); simpl; [by rewrite <- app_assoc | done].
Qed.

Lemma get_supported_pairs_run w pairs s :
  get_supported_pairs w pairs s = (Ok (kept w s pairs), foldl (after_check w) s pairs).
Proof. unfold get_supported_pairs. by rewrite get_supported_pairs_loop. Qed.

(** ** The price aggregator *)

Lemma exchanges_NoDup : NoDup exchanges.
Proof. apply (bool_decide_unpack _). vm_compute. exact I. Qed.

Lemma log_calls_nil s : log_calls [] s = s.
Proof. destruct s. unfold log_calls. simpl. by rewrite app_nil_r. Qed.

Lemma log_calls_history cs s :
  transaction_history (log_calls cs s) = transaction_history s.
Proof. done. Qed.

Lemma log_calls_unsupported cs s :
  unsupported_pairs (log_calls cs s) = unsupported_pairs s.
Proof. done. Qed.

Lemma log_calls_app cs1 cs2 s : log_calls cs2 (log_calls cs1 s) = log_calls (cs1 ++ cs2) s.
Proof. unfold log_calls. simpl. by rewrite app_assoc. Qed.

Lemma prices_loop w pair es acc s :
  NoDup (acc.*1 ++ es) →
  for_each (λ prices exchange_name,
      try_except
        (ticker ← fetch_ticker w exchange_name pair;
         mret (dict_set exchange_name
                 (Some {| last := ticker_last ticker;
                          volume := ticker_quoteVolume ticker |}) prices))
        (λ _, mret (dict_set exchange_name None prices))) es acc s
  = (Ok (acc ++ snapshot_from w (length (calls s)) pair es),
     log_calls ((λ e, FetchTicker e pair) <$> es) s).
Proof.
  revert acc s; induction es as [|e es IH]; intros acc s Hnd.
  - simpl. unfold_monad. by rewrite app_nil_r, log_calls_nil.
  - assert (He : e ∉ acc.*1).
    { apply NoDup_app in Hnd as (_ & Hd & _). intros Hin. apply (Hd _ Hin). left. }
    assert (Hnd' : ∀ v, NoDup ((dict_set e v acc).*1 ++ es)).
    { intros v. rewrite dict_set_fresh by done. rewrite fmap_app. simpl.
      by rewrite <- app_assoc. }
    cbn [for_each]. unfold mbind at 1, M_bind at 1. unfold try_except at 1.
    unfold mbind at 1, M_bind at 1. unfold fetch_ticker at 1.
    assert (Hlen : length (calls (log_call (FetchTicker e pair) s)) = S (length (calls s))).
    { unfold log_call. simpl. rewrite length_app. simpl. lia. }
    assert (Hlog : ∀ cs, log_calls cs (log_call (FetchTicker e pair) s)
                         = log_calls (FetchTicker e pair :: cs) s).
    { intros cs. unfold log_calls, log_call. simpl. by rewrite <- app_assoc. }
    cbn [snapshot_from]. rewrite fmap_cons.
    destruct (fetch_ticker_at w (length (calls s)) e pair) as [ticker|];
      unfold mret at 1, M_ret at 1; rewrite IH by apply Hnd';
      rewrite dict_set_fresh by done; rewrite <- app_assoc, Hlen, Hlog; done.
Qed.

Lemma prices_of_run w pair s :
  prices_of w pair s
  = (Ok (snapshot_from w (length (calls s)) pair exchanges), log_calls (fetches pair) s).
Proof. unfold prices_of. rewrite prices_loop; [done|]. apply exchanges_NoDup. Qed.

Lemma get_prices_loop w pairs acc s :
  for_each (λ all_prices pair,
      prices ← prices_of w pair; mret (dict_set pair prices all_prices)) pairs acc s
  = (Ok (collected w (length (calls s)) pairs acc), log_calls (pairs ≫= fetches) s).
Proof.
  revert acc s; induction pairs as [|p ps IH]; intros acc s.
  - simpl. unfold_monad. by rewrite log_calls_nil.
  - cbn [for_each collected]. unfold mbind at 1, M_bind at 1.
    unfold mbind at 1, M_bind at 1. rewrite prices_of_run.
    unfold mret at 1, M_ret at 1. rewrite IH. rewrite log_calls_app.
    assert (Hlen : length (calls (log_calls (fetches p) s))
                   = length (calls s) + length exchanges).
    { unfold log_calls, fetches. cbn [calls]. by rewrite length_app, length_fmap. }
    by rewrite Hlen.
Qed.

Lemma get_prices_run w pairs s :
  get_prices w pairs s
  = (Ok (collected w (length (calls s)) pairs []), log_calls (pairs ≫= fetches) s).
Proof. unfold get_prices. apply get_prices_loop. Qed.

(** ** What the filter does to the unsupported set *)

Lemma after_check_unsupported w s p :
  unsupported_pairs (after_check w s p) =
  if keeps w s p then unsupported_pairs s
  else if bool_decide (p ∈ unsupported_pairs s) then unsupported_pairs s
       else {[p]} ∪ unsupported_pairs s.
Proof.
  unfold after_check, keeps.
  destruct (bool_decide (p ∈ unsupported_pairs s)); cbn [negb andb]; [done|].
  by destruct (Nat.leb 2 _).
Qed.

Lemma after_check_mono w s p :
  unsupported_pairs s ⊆ unsupported_pairs (after_check w s p).
Proof.
  rewrite after_check_unsupported.
  destruct (keeps w s p); [done|]. case_bool_decide; set_solver.
Qed.

Lemma after_check_history w s p :
  transaction_history (after_check w s p) = transaction_history s.
Proof.
  unfold after_check. case_bool_decide; [done|]. by destruct (Nat.leb 2 _).
Qed.

Lemma filter_mono w s pairs :
  unsupported_pairs s ⊆ unsupported_pairs (foldl (after_check w) s pairs).
Proof.
  revert s; induction pairs as [|p ps IH]; intros s; simpl; [done|].
  etrans; [apply after_check_mono | apply IH].
Qed.

Lemma filter_history w s pairs :
  transaction_history (foldl (after_check w) s pairs) = transaction_history s.
Proof.
  revert s; induction pairs as [|p ps IH]; intros s; simpl; [done|].
  by rewrite IH, after_check_history.
Qed.

Lemma after_check_skip w s p :
  p ∈ unsupported_pairs s → keeps w s p = false ∧ after_check w s p = s.
Proof.
  intros Hp. unfold keeps, after_check. by rewrite bool_decide_eq_true_2.
Qed.

Lemma keeps_true w s p :
  keeps w s p = true →
  p ∉ unsupported_pairs s
  ∧ 2 ≤ length (listing_from w (length (calls s)) p exchanges).
Proof.
  unfold keeps. intros [H1 H2]%andb_true_iff.
  apply negb_true_iff, bool_decide_eq_false in H1. by apply Nat.leb_le in H2.
Qed.

Lemma keeps_false w s p :
  keeps w s p = false →
  p ∈ unsupported_pairs (after_check w s p)
  ∧ (p ∈ unsupported_pairs s
     ∨ length (listing_from w (length (calls s)) p exchanges) < 2).
Proof.
  intros Hk. rewrite after_check_unsupported, Hk.
  unfold keeps in Hk. apply andb_false_iff in Hk.
  case_bool_decide as Hin; [by split; [|left]|].
  destruct Hk as [Hk|Hk]; [done|]. apply Nat.leb_gt in Hk.
  split; [set_solver | by right].
Qed.

(** A pair already in the set changes nothing: no output, no query. *)
Lemma filter_skip w s pairs p :
  p ∈ unsupported_pairs s →
  p ∉ kept w s pairs
  ∧ kept w s pairs = kept w s (filter (λ x, x ≠ p) pairs)
  ∧ foldl (after_check w) s pairs = foldl (after_check w) s (filter (λ x, x ≠ p) pairs).
Proof.
  revert s; induction pairs as [|x xs IH]; intros s Hp.
  - split_and!; [apply not_elem_of_nil | done | done].
  - destruct (decide (x = p)) as [->|Hne].
    + rewrite filter_cons_False by naive_solver. cbn [kept foldl].
      destruct (after_check_skip w s p Hp) as [-> ->]. by apply IH.
    + rewrite filter_cons_True by done. cbn [kept foldl].
      assert (Hp' : p ∈ unsupported_pairs (after_check w s x)).
      { by apply after_check_mono. }
      destruct (IH _ Hp') as (H1 & H2 & H3). split_and!.
      * intros [Hin|Hin]%elem_of_app; [|done].
        destruct (keeps w s x); set_solver.
      * by rewrite H2.
      * done.
Qed.

Lemma kept_sublist w s pairs : sublist (kept w s pairs) pairs.
Proof.
  revert s; induction pairs as [|p ps IH]; intros s; cbn [kept foldl]; [done|].
  destruct (keeps w s p); cbn [app]; [apply sublist_skip | apply sublist_cons]; apply IH.
Qed.


Lemma kept_complete w s pairs p :
  p ∈ pairs → p ∉ kept w s pairs →
  p ∈ unsupported_pairs (foldl (after_check w) s pairs).
Proof.
  revert s; induction pairs as [|x xs IH]; intros s; cbn [kept foldl]; [by intros ?%elem_of_nil|].
  intros Hin Hnk. apply not_elem_of_app in Hnk as [Hn1 Hn2].
  apply elem_of_cons in Hin as [->|Hin].
  - destruct (keeps w s x) eqn:Hk; [set_solver|].
    apply keeps_false in Hk as [Hk _]. by apply filter_mono.
  - by apply IH.
Qed.

Lemma filter_adds w s pairs p :
  p ∈ unsupported_pairs (foldl (after_check w) s pairs) →
  p ∈ unsupported_pairs s
  ∨ (p ∈ pairs ∧ ∃ n, length (listing_from w n p exchanges) < 2).
Proof.
  revert s; induction pairs as [|x xs IH]; intros s; cbn [kept foldl]; [by left|].
  intros Hp. apply IH in Hp as [Hp|[Hin Hex]].
  - rewrite after_check_unsupported in Hp.
    destruct (keeps w s x) eqn:Hk; [by left|].
    case_bool_decide; [by left|].
    apply elem_of_union in Hp as [Hp|Hp]; [|by left].
    apply elem_of_singleton in Hp as ->. right. split; [left|].
    apply keeps_false in Hk as [_ [Hk|Hk]]; [done|by eexists].
  - right. split; [by right | done].
Qed.

(** ** The filter when the market lists do not change *)

Lemma listing_stable w markets n p es :
  (∀ n e, load_markets_at w n e = markets e) →
  listing_from w n p es = filter (λ e, listed_on markets p e) es.
Proof.
  intros Hst. revert n; induction es as [|e es IH]; intros n; [done|].
  cbn [listing_from]. rewrite filter_cons, IH.
  unfold lists_at, listed_on. rewrite Hst.
  destruct (markets e) as [ms|]; [|done].
  by destruct (bool_decide (p ∈ ms)).
Qed.

Lemma kept_stable w markets (U0 : gset string) pairs s :
  (∀ n e, load_markets_at w n e = markets e) →
  U0 ⊆ unsupported_pairs s →
  (∀ p, p ∈ unsupported_pairs s →
        p ∈ U0 ∨ ¬ 2 ≤ length (filter (λ e, listed_on markets p e) exchanges)) →
  kept w s pairs
  = filter (λ p, p ∉ U0 ∧ 2 ≤ length (filter (λ e, listed_on markets p e) exchanges))
      pairs.
Proof.
  intros Hst. revert s; induction pairs as [|x xs IH]; intros s Hsub Hinv; [done|].
  cbn [kept]. rewrite filter_cons.
  assert (Hk : keeps w s x = true ↔
               x ∉ U0 ∧ 2 ≤ length (filter (λ e, listed_on markets x e) exchanges)).
  { unfold keeps. rewrite (listing_stable w markets) by done.
    rewrite andb_true_iff, negb_true_iff, bool_decide_eq_false, Nat.leb_le.
    split; [set_solver|]. intros [Hx Hl]. split; [|done].
    intros Hin. destruct (Hinv _ Hin); done. }
  rewrite IH.
  - destruct (keeps w s x) eqn:Hkx.
    + rewrite decide_True; [done|]. by apply Hk.
    + rewrite decide_False; [done|]. intros H. apply Hk in H. done.
  - etrans; [done | apply after_check_mono].
  - intros p. rewrite after_check_unsupported.
    destruct (keeps w s x) eqn:Hkx; [apply Hinv|].
    case_bool_decide as Hin; [apply Hinv|].
    intros [Hp|Hp]%elem_of_union; [|by apply Hinv].
    apply elem_of_singleton in Hp as ->. right. intros Hl.
    assert (Hx : x ∉ U0) by set_solver.
    assert (Habs : false = true) by (by apply Hk). discriminate Habs.
Qed.




(** ** One polling cycle *)

Lemma get_data_api_dict_run w s :
  get_data_api_dict w s = (Ok (cycle_response w s), cycle_state w s).
Proof.
  unfold get_data_api_dict.
  unfold mbind at 1, M_bind at 1. rewrite get_supported_pairs_run.
  unfold mbind at 1, M_bind at 1. rewrite get_prices_run.
  unfold mbind at 1, M_bind at 1. rewrite calculate_arbitrage_run.
  reflexivity.
Qed.

Lemma get_data_api_run w s :
  get_data_api w s = (Ok (jsonify (cycle_response w s)), cycle_state w s).
Proof. unfold get_data_api, mbind, M_bind. by rewrite get_data_api_dict_run. Qed.

Lemma cycle_state_history w s :
  transaction_history (cycle_state w s)
  = transaction_history s
    ++ stamped w
         (length (calls (log_calls (cycle_pairs w s ≫= fetches)
                           (foldl (after_check w) s initial_pairs))))
         (cycle_results w s).
Proof.
  unfold cycle_state. rewrite record_all_history, log_calls_history.
  by rewrite filter_history.
Qed.

Lemma cycle_state_unsupported w s :
  unsupported_pairs (cycle_state w s)
  = unsupported_pairs (foldl (after_check w) s initial_pairs).
Proof.
  unfold cycle_state. rewrite record_all_unsupported. apply log_calls_unsupported.
Qed.

(** ** The operations of the module *)

Lemma run_operation_mono w s op :
  unsupported_pairs s ⊆ unsupported_pairs (run_operation w s op).
Proof.
  destruct op as [pairs|pairs|prices|]; unfold run_operation.
  - rewrite get_supported_pairs_run. apply filter_mono.
  - rewrite get_prices_run. cbn [snd]. by rewrite log_calls_unsupported.
  - rewrite calculate_arbitrage_run. cbn [snd]. by rewrite record_all_unsupported.
  - rewrite get_data_api_run. cbn [snd]. rewrite cycle_state_unsupported.
    apply filter_mono.
Qed.

(** ** The unsupported set over the life of the process *)

(** C7. The unsupported set only grows: no operation of the module, and
    so no sequence of operations, removes a pair from it. A pair already in
    the set is skipped by the filter: it is not in the output, and the run
    is the run on the candidate list without that pair (same output, same
    queries, same state). The filter adds a pair only if it is a candidate
    that fewer than 2 exchanges listed when asked. The arbitrage evaluation
    and the price aggregator leave the set as it is (a pair skipped for
    want of a reference price is not added), and a whole polling cycle
    changes it exactly as its filter step does. *)
Theorem unsupported_pairs_grow_only (w : World) :
  (∀ s ops, unsupported_pairs s ⊆ unsupported_pairs (foldl (run_operation w) s ops))
  ∧ (∀ s pairs p, p ∈ unsupported_pairs s →
       ∃ out, (get_supported_pairs w pairs s).1 = Ok out
         ∧ p ∉ out
         ∧ get_supported_pairs w pairs s
           = get_supported_pairs w (filter (λ x, x ≠ p) pairs) s)
  ∧ (∀ s pairs p, p ∈ unsupported_pairs (get_supported_pairs w pairs s).2 →
       p ∈ unsupported_pairs s
       ∨ (p ∈ pairs ∧ ∃ n, length (listing_from w n p exchanges) < 2))
  ∧ (∀ s prices,
       unsupported_pairs (calculate_arbitrage w prices s).2 = unsupported_pairs s)
  ∧ (∀ s pairs, unsupported_pairs (get_prices w pairs s).2 = unsupported_pairs s)
  ∧ (∀ s, unsupported_pairs (get_data_api w s).2
          = unsupported_pairs (get_supported_pairs w initial_pairs s).2).
Proof.
  split_and!.
  - intros s ops. revert s; induction ops as [|op ops IH]; intros s; simpl; [done|].
    etrans; [apply run_operation_mono | apply IH].
  - intros s pairs p Hp. rewrite !get_supported_pairs_run. cbn [fst].
    destruct (filter_skip w s pairs p Hp) as (H1 & H2 & H3).
    exists (kept w s pairs). split_and!; [done | done |]. by rewrite <- H2, <- H3.
  - intros s pairs p. rewrite get_supported_pairs_run. cbn [snd]. apply filter_adds.
  - intros s prices. rewrite calculate_arbitrage_run. cbn [snd].
    apply record_all_unsupported.
  - intros s pairs. rewrite get_prices_run. cbn [snd]. apply log_calls_unsupported.
  - intros s. rewrite get_data_api_run, get_supported_pairs_run. cbn [snd].
    apply cycle_state_unsupported.
Qed.

Lemma unsupported_pairs_grow_only_witness :
  "XRP/USDT" ∈ unsupported_pairs seeded_state
  ∧ get_supported_pairs steady_world ["XRP/USDT"; "ETH/USDT"] seeded_state
    = get_supported_pairs steady_world ["ETH/USDT"] seeded_state
  ∧ calls (get_supported_pairs steady_world ["XRP/USDT"; "ETH/USDT"] seeded_state).2
    = LoadMarkets <$> exchanges.
Proof.
  assert (Hin : "XRP/USDT" ∈ unsupported_pairs seeded_state).
  { apply (bool_decide_unpack _). vm_compute. exact I. }
  destruct (unsupported_pairs_grow_only steady_world) as (_ & Hskip & _).
  destruct (Hskip seeded_state ["XRP/USDT"; "ETH/USDT"] "XRP/USDT" Hin)
    as (out & _ & _ & Heq).
  split_and!; [exact Hin | exact Heq |].
  rewrite Heq. vm_compute. reflexivity.
Defined.

(** ** What the aggregator returns *)

Lemma snapshot_keys w n p es : (snapshot_from w n p es).*1 = es.
Proof. revert n; induction es as [|e es IH]; intros n; csimpl; [done|]. by rewrite IH. Qed.

Lemma snapshot_lookup w n p es i e :
  es !! i = Some e →
  snapshot_from w n p es !! i = Some (e, entry_of (fetch_ticker_at w (n + i) e p)).
Proof.
  revert n i; induction es as [|x es IH]; intros n i Hi; [done|].
  destruct i as [|i]; simpl in *.
  - injection Hi as ->. by rewrite Nat.add_0_r.
  - rewrite (IH (S n) i Hi). do 4 f_equal. lia.
Qed.

Lemma collected_NoDup w n ps acc :
  NoDup acc.*1 → NoDup (collected w n ps acc).*1.
Proof.
  revert n acc; induction ps as [|p ps IH]; intros n acc Hnd; cbn [collected]; [done|].
  apply IH. by apply dict_set_NoDup.
Qed.

Lemma collected_keys w n ps acc k :
  k ∈ (collected w n ps acc).*1 ↔ k ∈ acc.*1 ∨ k ∈ ps.
Proof.
  revert n acc; induction ps as [|p ps IH]; intros n acc; cbn [collected].
  - set_solver.
  - rewrite IH, dict_keys_set. case_bool_decide; set_solver.
Qed.

Lemma collected_get_notin w n ps acc k :
  k ∉ ps → dict_get k (collected w n ps acc) = dict_get k acc.
Proof.
  revert n acc; induction ps as [|p ps IH]; intros n acc Hk; cbn [collected]; [done|].
  apply not_elem_of_cons in Hk as [Hne Hk].
  rewrite IH by done. by apply dict_get_set_ne.
Qed.

Lemma collected_get_last w n l1 p l2 acc :
  p ∉ l2 →
  dict_get p (collected w n (l1 ++ p :: l2) acc)
  = Some (snapshot_from w (n + length exchanges * length l1) p exchanges).
Proof.
  intros Hp. revert n acc; induction l1 as [|x l1 IH]; intros n acc.
  - cbn [app collected length]. rewrite collected_get_notin by done.
    rewrite dict_get_set_eq. do 2 f_equal. lia.
  - cbn [app collected length]. rewrite IH. do 2 f_equal. lia.
Qed.

Lemma elem_of_last_occurrence (l : list string) (p : string) :
  p ∈ l → ∃ l1 l2, l = l1 ++ p :: l2 ∧ p ∉ l2.
Proof.
  induction l as [|x l IH]; [by intros ?%elem_of_nil|].
  intros Hin. destruct (decide (p ∈ l)) as [Hl|Hl].
  - destruct (IH Hl) as (l1 & l2 & -> & Hn). by exists (x :: l1), l2.
  - apply elem_of_cons in Hin as [->|Hin]; [|done]. by exists [], l.
Qed.

Lemma filter_none {A} (P : A → Prop) `{!∀ x, Decision (P x)} (l : list A) :
  (∀ x, x ∈ l → ¬ P x) → filter P l = [].
Proof.
  induction l as [|x l IH]; intros Hl; [done|].
  rewrite filter_cons_False by (apply Hl; left). apply IH.
  intros y Hy. apply Hl. by right.
Qed.

Lemma length_filter_fmap {A B} (f : A → B) (P : B → Prop) `{!∀ y, Decision (P y)}
    (l : list A) :
  length (filter P (f <$> l)) = length (filter (λ x, P (f x)) l).
Proof.
  induction l as [|x l IH]; [done|]. rewrite fmap_cons, !filter_cons.
  destruct (decide (P (f x))); simpl; by rewrite IH.
Qed.

Lemma count_once (l : list string) (e : string) :
  NoDup l → e ∈ l → length (filter (λ x, x = e) l) = 1.
Proof.
  induction l as [|x l IH]; [by intros _ ?%elem_of_nil|].
  intros [Hx Hnd]%NoDup_cons Hin. rewrite filter_cons.
  destruct (decide (x = e)) as [->|Hne]; simpl.
  - rewrite filter_none; [done|]. intros y Hy ->. done.
  - apply elem_of_cons in Hin as [->|Hin]; [done|]. by apply IH.
Qed.

Lemma count_fetches (pairs : list string) (e p : string) :
  e ∈ exchanges →
  length (filter (λ c, c = FetchTicker e p) (pairs ≫= fetches))
  = length (filter (λ x, x = p) pairs).
Proof.
  intros He. induction pairs as [|x xs IH]; [done|].
  rewrite bind_cons, filter_app, length_app, IH, filter_cons.
  assert (Hone : length (filter (λ c, c = FetchTicker e p) (fetches x))
                 = if decide (x = p) then 1 else 0).
  { unfold fetches. rewrite length_filter_fmap.
    destruct (decide (x = p)) as [->|Hne].
    - rewrite <- (count_once exchanges e exchanges_NoDup He).
      f_equal. apply list_filter_iff. intros e'. naive_solver.
    - rewrite filter_none; [done|]. intros e' _ [= _ Hx]. done. }
  rewrite Hone. by destruct (decide (x = p)).
Qed.

(** C9. The aggregator never raises. It returns a mapping whose keys are
    exactly the input pairs; every input pair is mapped to a snapshot set
    whose keys are the configured exchanges, in order, one entry each. The
    entry of an exchange is absent exactly when its own ticker query failed,
    and otherwise carries the last price and volume of the answer; for a
    pair listed several times the last snapshot set stays. The queries made
    are, for each entry of the list in order, one ticker query per
    configured exchange: an exchange is asked for a pair as many times as
    the pair is in the list, so exactly once when the list has no repeated
    pair, which is the case for the list a polling cycle passes. Nothing
    else in the state changes. *)
Theorem get_prices_total (w : World) (pairs : list string) (s : State) :
  ∃ all_prices s',
    get_prices w pairs s = (Ok all_prices, s')
    ∧ NoDup all_prices.*1
    ∧ (∀ p, p ∈ all_prices.*1 ↔ p ∈ pairs)
    ∧ (∀ p, p ∈ pairs →
         ∃ snapshot, dict_get p all_prices = Some snapshot ∧ snapshot.*1 = exchanges)
    ∧ (∀ l1 p l2, pairs = l1 ++ p :: l2 → p ∉ l2 →
         ∃ snapshot, dict_get p all_prices = Some snapshot
           ∧ ∀ i e, exchanges !! i = Some e →
               let answer :=
                 fetch_ticker_at w
                   (length (calls s) + length exchanges * length l1 + i) e p in
               snapshot !! i = Some (e, entry_of answer)
               ∧ (entry_of answer = None ↔ answer = None)
               ∧ ∀ ticker, answer = Some ticker →
                   entry_of answer = Some {| last := ticker_last ticker;
                                             volume := ticker_quoteVolume ticker |})
    ∧ calls s' = calls s ++ (pairs ≫= fetches)
    ∧ (∀ p e, e ∈ exchanges →
         length (filter (λ c, c = FetchTicker e p) (pairs ≫= fetches))
         = length (filter (λ x, x = p) pairs))
    ∧ (NoDup pairs → ∀ p e, p ∈ pairs → e ∈ exchanges →
         length (filter (λ c, c = FetchTicker e p) (pairs ≫= fetches)) = 1)
    ∧ (∀ s0, ∃ pairs0 s1,
         get_supported_pairs w initial_pairs s0 = (Ok pairs0, s1) ∧ NoDup pairs0)
    ∧ transaction_history s' = transaction_history s
    ∧ unsupported_pairs s' = unsupported_pairs s.
Proof.
  rewrite get_prices_run. do 2 eexists. split; [done|]. split_and!.
  - apply collected_NoDup. constructor.
  - intros p. rewrite collected_keys. set_solver.
  - intros p Hp. apply elem_of_last_occurrence in Hp as (l1 & l2 & -> & Hn).
    rewrite collected_get_last by done. eexists. split; [done|]. apply snapshot_keys.
  - intros l1 p l2 -> Hn. rewrite collected_get_last by done.
    eexists. split; [done|]. intros i e Hi. cbv zeta. split_and!.
    + by apply snapshot_lookup.
    + by destruct (fetch_ticker_at _ _ _ _).
    + by intros ticker ->.
  - done.
  - intros p e. apply count_fetches.
  - intros Hnd p e Hp He. rewrite count_fetches by done. by apply count_once.
  - intros s0. rewrite get_supported_pairs_run. do 2 eexists. split; [done|].
    assert (Hnd : NoDup initial_pairs).
    { apply (bool_decide_unpack _). vm_compute. exact I. }
    apply (sublist_NoDup _ _ Hnd), kept_sublist.
  - done.
  - done.
Qed.

Lemma get_prices_total_witness :
  NoDup ["ETH/USDT"; "XRP/USDT"]
  ∧ "XRP/USDT" ∈ ["ETH/USDT"; "XRP/USDT"]
  ∧ "kraken" ∈ exchanges
  ∧ length (filter (λ c, c = FetchTicker "kraken" "XRP/USDT")
              (["ETH/USDT"; "XRP/USDT"] ≫= fetches)) = 1
  ∧ ∃ all_prices,
      (get_prices steady_world ["ETH/USDT"; "XRP/USDT"] initial_state).1 = Ok all_prices
      ∧ dict_get "XRP/USDT" all_prices
        = Some [ ("binance", Some {| last := Some 3020%Q; volume := None |});
                 ("kraken", Some {| last := Some 3000%Q; volume := Some 10%Q |});
                 ("coinbase", None); ("kucoin", None);
                 ("bitget", None); ("bitfinex", None) ].
Proof.
  assert (Hnd : NoDup ["ETH/USDT"; "XRP/USDT"]).
  { apply (bool_decide_unpack _). vm_compute. exact I. }
  assert (Hp : "XRP/USDT" ∈ ["ETH/USDT"; "XRP/USDT"]).
  { apply (bool_decide_unpack _). vm_compute. exact I. }
  assert (He : "kraken" ∈ exchanges).
  { apply (bool_decide_unpack _). vm_compute. exact I. }
  destruct (get_prices_total steady_world ["ETH/USDT"; "XRP/USDT"] initial_state)
    as (all_prices & s' & Hrun & _ & _ & _ & _ & _ & _ & Honce & _).
  split_and!; [exact Hnd | exact Hp | exact He | exact (Honce Hnd _ _ Hp He) |].
  eexists. split; vm_compute; reflexivity.
Defined.

(** ** The simulated entry *)

(** The numbers of the simulated entry are not those of the engine: with
    its prices the engine's ROI is not 0.67. *)
Lemma simulated_result_not_emitted item : emitted item ≠ Some simulated_result.
Proof.
  intros He. apply emitted_roi in He. vm_compute in He. discriminate He.
Qed.

Lemma transaction_of_inj o1 o2 t1 t2 :
  transaction_of o1 t1 = transaction_of o2 t2 → o1 = o2.
Proof. destruct o1, o2. unfold transaction_of. simpl. by intros [= -> -> -> -> -> -> -> -> ->]. Qed.

Lemma stamped_real w n prices :
  Forall (λ tx, real_transaction tx
                ∧ (min_profit_margin * 100 <= Transaction.roi tx)%Q
                ∧ ∀ ts, tx ≠ transaction_of simulated_result ts)
    (stamped w n (omap emitted prices)).
Proof.
  apply Forall_forall. intros tx Htx. unfold stamped in Htx.
  apply elem_of_lookup_imap in Htx as (i & o & -> & Hi).
  apply list_elem_of_lookup_2 in Hi. split_and!.
  - exists w, prices, initial_state. do 2 eexists. exists o. eexists.
    split; [apply calculate_arbitrage_run|]. by split.
  - by apply emitted_invariants in Hi as [Hroi _].
  - intros ts Heq. apply transaction_of_inj in Heq as ->.
    apply list_elem_of_omap in Hi as (item & _ & He).
    by apply simulated_result_not_emitted in He.
Qed.

Lemma cycles_S w n s : cycles w (S n) s = cycle_state w (cycles w n s).
Proof. unfold cycles. simpl. by rewrite get_data_api_run. Qed.

Lemma cycles_history w n s :
  ∃ txs, transaction_history (cycles w n s) = transaction_history s ++ txs
    ∧ Forall (λ tx, real_transaction tx
                    ∧ (min_profit_margin * 100 <= Transaction.roi tx)%Q
                    ∧ ∀ ts, tx ≠ transaction_of simulated_result ts)
        txs.
Proof.
  induction n as [|n (txs & Heq & Hall)].
  - exists []. split; [by rewrite app_nil_r | constructor].
  - rewrite cycles_S, cycle_state_history, Heq. eexists. rewrite <- app_assoc.
    split; [done|]. apply Forall_app. split; [done|]. apply stamped_real.
Qed.

Lemma py_sum_fmap_foldr {A} (f : A → Q) (l : list A) :
  (match l with [] => 0 | _ => py_sum (f <$> l) end == foldr Qplus 0 (f <$> l))%Q.
Proof. destruct l; [reflexivity|]. apply py_sum_foldr. Qed.

(** C1, as the code has it. In every polling cycle the endpoint answers
    without raising; when the arbitrage calculation of the cycle returns no
    opportunity, the answer's results are exactly the one simulated entry,
    and otherwise they are the real results, so the results are never
    empty. The simulated entry carries the same nine fields as a real
    opportunity: no field marks it. *)
Theorem get_data_api_fallback (w : World) (s : State) :
  ∃ r s' pairs s1 prices s2 rs,
    get_data_api_dict w s = (Ok r, s')
    ∧ get_data_api w s = (Ok (jsonify r), s')
    ∧ get_supported_pairs w initial_pairs s = (Ok pairs, s1)
    ∧ get_prices w pairs s1 = (Ok prices, s2)
    ∧ calculate_arbitrage w prices s2 = (Ok rs, s')
    ∧ (rs = [] → Response.results r = [simulated_result])
    ∧ (rs ≠ [] → Response.results r = rs)
    ∧ Response.results r ≠ []
    ∧ ∀ o k, ¬ marker_field k (json_of_opportunity simulated_result)
                 (json_of_opportunity o).
Proof.
  exists (cycle_response w s), (cycle_state w s), (cycle_pairs w s),
    (foldl (after_check w) s initial_pairs), (cycle_prices w s),
    (log_calls (cycle_pairs w s ≫= fetches) (foldl (after_check w) s initial_pairs)),
    (cycle_results w s).
  split_and!.
  - apply get_data_api_dict_run.
  - apply get_data_api_run.
  - apply get_supported_pairs_run.
  - apply get_prices_run.
  - apply calculate_arbitrage_run.
  - intros Hrs. unfold cycle_response. cbn [Response.results]. by rewrite Hrs.
  - intros Hrs. unfold cycle_response. cbn [Response.results].
    by destruct (cycle_results w s).
  - unfold cycle_response. cbn [Response.results]. by destruct (cycle_results w s).
  - intros o k [[H1 H2]|[H1 H2]]; [exact (H2 H1) | exact (H1 H2)].
Qed.

Lemma get_data_api_fallback_witness :
  ∃ r s',
    get_data_api_dict silent_world initial_state = (Ok r, s')
    ∧ calculate_arbitrage silent_world [] s' = (Ok [], s')
    ∧ Response.results r = [simulated_result]
    ∧ Response.results r ≠ [].
Proof.
  destruct (get_data_api_fallback silent_world initial_state)
    as (r & s' & pairs & s1 & prices & s2 & rs & Hrun & _ & _ & _ & _ & _ & _ & Hne & _).
  exists r, s'. split_and!; [exact Hrun | reflexivity | | exact Hne].
  pose proof Hrun as Hc. vm_compute in Hc. injection Hc as <- _. reflexivity.
Defined.

(** C1, as the spec words it, fails. A cycle in which nothing answers
    returns the simulated entry; a cycle in which kraken quotes 3000 and
    binance 3020 returns a real opportunity for the same pair and the same
    exchanges. Both objects have the same field names: no field marks the
    simulated one. *)
Lemma simulated_result_has_no_marker :
  ∃ r1 r2 o,
    (get_data_api_dict silent_world initial_state).1 = Ok r1
    ∧ Response.results r1 = [simulated_result]
    ∧ (get_data_api_dict steady_world initial_state).1 = Ok r2
    ∧ Response.results r2 = [o]
    ∧ o ≠ simulated_result
    ∧ Opportunity.pair o = Opportunity.pair simulated_result
    ∧ Opportunity.buy_exchange o = Opportunity.buy_exchange simulated_result
    ∧ Opportunity.sell_exchange o = Opportunity.sell_exchange simulated_result
    ∧ object_keys (json_of_opportunity simulated_result)
      = object_keys (json_of_opportunity o)
    ∧ ¬ ∃ k, marker_field k (json_of_opportunity simulated_result)
                (json_of_opportunity o).
Proof.
  do 3 eexists. split; [vm_compute; reflexivity|]. split; [reflexivity|].
  split; [vm_compute; reflexivity|]. split; [reflexivity|].
  split_and!; try reflexivity.
  - intros H. discriminate H.
  - intros [k [[H1 H2]|[H1 H2]]]; [exact (H2 H1) | exact (H1 H2)].
Qed.

(** ** The ledger and the simulated entry *)

Lemma cycle_simulated_only w s :
  Response.results (cycle_response w s) = [simulated_result] →
  cycle_results w s = [].
Proof.
  unfold cycle_response. cbn [Response.results].
  destruct (cycle_results w s) as [|o rs] eqn:Hrs; [done|].
  intros [= -> ->].
  assert (Hin : simulated_result ∈ cycle_results w s) by (rewrite Hrs; left).
  apply list_elem_of_omap in Hin as (item & _ & He).
  by apply simulated_result_not_emitted in He.
Qed.

(** C10. The simulated entry never reaches the ledger. After any number of
    calls of the endpoint, the transactions added to the ledger are all
    transactions of opportunities returned by the arbitrage calculation,
    each with an ROI of at least [min_profit_margin * 100], and none of
    them is the simulated entry with a timestamp. Every answer
    of the endpoint reports the ledger as it is after the call, with totals
    that are the sums of the ROI and of the USD operation value over that
    ledger; a call that answers with the simulated entry leaves the ledger
    as it was. *)
Theorem simulated_result_never_recorded (w : World) (n : nat) (s : State) :
  (∃ txs, transaction_history (cycles w n s) = transaction_history s ++ txs
     ∧ Forall real_transaction txs
     ∧ Forall (λ tx, (min_profit_margin * 100 <= Transaction.roi tx)%Q) txs
     ∧ Forall (λ tx, ∀ timestamp, tx ≠ transaction_of simulated_result timestamp) txs)
  ∧ Forall real_transaction (transaction_history (cycles w n initial_state))
  ∧ ∃ r s', get_data_api_dict w (cycles w n s) = (Ok r, s')
      ∧ Response.transaction_history r = transaction_history s'
      ∧ (total_roi (Response.performance r)
         == foldr Qplus 0 (Transaction.roi <$> transaction_history s'))%Q
      ∧ (total_usd_operations (Response.performance r)
         == foldr Qplus 0 (Transaction.usd_operation_value <$> transaction_history s'))%Q
      ∧ (Response.results r = [simulated_result] →
         transaction_history s' = transaction_history (cycles w n s)).
Proof.
  split_and!.
  - destruct (cycles_history w n s) as (txs & Heq & Hall).
    exists txs. split; [done|].
    split_and!; eapply Forall_impl; try exact Hall; naive_solver.
  - destruct (cycles_history w n initial_state) as (txs & Heq & Hall).
    rewrite Heq. simpl. eapply Forall_impl; [exact Hall | naive_solver].
  - rewrite get_data_api_dict_run. do 2 eexists. split; [done|]. split_and!.
    + done.
    + apply py_sum_fmap_foldr.
    + apply py_sum_fmap_foldr.
    + intros Hsim. apply cycle_simulated_only in Hsim.
      rewrite cycle_state_history, Hsim. unfold stamped. simpl. by rewrite app_nil_r.
Qed.

Lemma simulated_result_never_recorded_witness :
  ∃ r s',
    get_data_api_dict silent_world (cycles silent_world 2 initial_state) = (Ok r, s')
    ∧ Response.results r = [simulated_result]
    ∧ transaction_history s' = []
    ∧ (total_roi (Response.performance r) == 0)%Q.
Proof.
  destruct (simulated_result_never_recorded silent_world 2 initial_state)
    as (_ & _ & r & s' & Hrun & _ & _ & _ & Hsim).
  assert (Hres : Response.results r = [simulated_result]).
  { pose proof Hrun as Hc. vm_compute in Hc. injection Hc as <- _. reflexivity. }
  exists r, s'. split_and!; [exact Hrun | exact Hres | |].
  - rewrite (Hsim Hres). vm_compute. reflexivity.
  - pose proof Hrun as Hc. vm_compute in Hc. injection Hc as <- _. reflexivity.
Defined.

(** ** Runs of the model on small inputs *)

Example dict_set_overwrites_in_place :
  dict_set "a" 2 [("a", 1); ("b", 3)] = [("a", 2); ("b", 3)].
Proof. reflexivity. Qed.

Example dict_set_appends_new_key :
  dict_set "c" 2 [("a", 1); ("b", 3)] = [("a", 1); ("b", 3); ("c", 2)].
Proof. reflexivity. Qed.

Example py_min_takes_first_of_ties :
  (py_min [("kraken", 5%Q); ("coinbase", 3%Q); ("kucoin", 3%Q)] initial_state).1
  = Ok ("coinbase", 3%Q).
Proof. reflexivity. Qed.

Example py_min_empty_raises :
  (py_min [] initial_state).1 = Raise ValueError.
Proof. reflexivity. Qed.

(** A buy price of 0 is a valid price: the pair is quoted with ROI 0 and
    nothing is emitted. *)
Example zero_buy_price_not_emitted :
  (calculate_arbitrage silent_world
     [("ETH/USDT", [("kraken", entry_at 0); ("binance", entry_at 3020)])]
     initial_state)
  = (Ok [], initial_state).
Proof. vm_compute. reflexivity. Qed.

(** Without a reference price the pair is skipped and the state is left as
    it was. *)
Example no_reference_price_skipped :
  (calculate_arbitrage silent_world
     [("ETH/USDT", [("kraken", entry_at 3000); ("binance", None)])]
     seeded_state)
  = (Ok [], seeded_state).
Proof. vm_compute. reflexivity. Qed.

(** A pair listed twice is fetched twice and keeps one key. *)
Example get_prices_repeated_pair :
  let r := get_prices silent_world ["ETH/USDT"; "ETH/USDT"] initial_state in
  length (calls r.2) = 12
  ∧ (λ all_prices, all_prices.*1) <$> (match r.1 with Ok a => Some a | Raise _ => None end)
    = Some ["ETH/USDT"].
Proof. split; vm_compute; reflexivity. Qed.

(** A cycle in the steady world: one real opportunity, one transaction,
    eleven pairs marked unsupported. *)
Example steady_cycle :
  let s := cycles steady_world 1 initial_state in
  length (transaction_history s) = 1
  ∧ size (unsupported_pairs s) = 11
  ∧ length (calls s) = 79.
Proof. split_and!; vm_compute; reflexivity. Qed.

(** * Further properties of the code *)

(** ** What an emitted opportunity looks like *)

Lemma roi_of_threshold_iff (buy sell : Q) :
  (min_profit_margin * 100 <= roi_of buy sell)%Q ↔
  (0 < buy)%Q
  ∧ ((1 + min_profit_margin) * (buy * (1 + transaction_fee + slippage))
     <= sell * (1 - transaction_fee - slippage))%Q.
Proof.
  unfold roi_of, min_profit_margin, transaction_fee, slippage. cbv zeta.
  set (adjb := (buy * (1 + 0.001 + 0.0005))%Q).
  set (adjs := (sell * (1 - 0.001 - 0.0005))%Q).
  destruct (Qlt_le_dec 0 adjb) as [Hpos|Hneg].
  - assert (Hr : ((adjs - adjb) / adjb * adjb == adjs - adjb)%Q) by (field; lra).
    set (r := ((adjs - adjb) / adjb)%Q) in *. split.
    + intros Hle. split; [subst adjb; lra|].
      assert (H1 : (0.002 * adjb <= r * adjb)%Q).
      { apply Qmult_le_compat_r; lra. }
      lra.
    + intros [_ Hle].
      assert (H1 : (0.002 <= r)%Q).
      { subst r. apply Qle_shift_div_l; [done | lra]. }
      lra.
  - split.
    + intros Hle. exfalso. lra.
    + intros [Hb _]. exfalso. subst adjb. lra.
Qed.

Lemma emitted_margin (prices : list (string * list (string * option PriceEntry)))
    (o : Opportunity.t) :
  o ∈ omap emitted prices →
  (Opportunity.buy_price o < Opportunity.sell_price o)%Q
  ∧ (100.2 <= Opportunity.usd_operation_value o)%Q.
Proof.
  intros Hin. pose proof (emitted_invariants _ _ Hin) as (Hroi & Hb & Hs & _).
  apply elem_of_emitted_inv in Hin as (pp & q & _ & Hq & Hle & Ho).
  apply quote_of_Some in Hq as (_ & _ & _ & _ & _ & Hr & _). cbv zeta in *.
  rewrite Hr in Hle. apply roi_of_threshold_iff in Hle as [_ Hm].
  assert (Husd : (Opportunity.usd_operation_value o
                  == fixed_investment + Opportunity.roi o)%Q).
  { rewrite Ho. simpl. unfold fixed_investment. field. }
  rewrite Ho in *. simpl in *.
  unfold min_profit_margin, transaction_fee, slippage, fixed_investment in *.
  split; lra.
Qed.

(** X2. Every opportunity the engine returns sells strictly above its buy
    price, and its USD operation value is at least 100.2. *)
Theorem calculate_arbitrage_margin (w : World)
    (prices : list (string * list (string * option PriceEntry)))
    (s s' : State) (rs : list Opportunity.t) (o : Opportunity.t) :
  calculate_arbitrage w prices s = (Ok rs, s') →
  o ∈ rs →
  (Opportunity.buy_price o < Opportunity.sell_price o)%Q
  ∧ (100.2 <= Opportunity.usd_operation_value o)%Q.
Proof.
  rewrite calculate_arbitrage_run. intros [= <- <-]. apply emitted_margin.
Qed.

Lemma calculate_arbitrage_margin_witness :
  calculate_arbitrage silent_world [("ETH/USDT", scenario_pair_prices)] initial_state
  = (Ok [scenario_opportunity], record silent_world initial_state scenario_opportunity)
  ∧ scenario_opportunity ∈ [scenario_opportunity]
  ∧ (Opportunity.buy_price scenario_opportunity
     < Opportunity.sell_price scenario_opportunity)%Q
  ∧ (100.2 <= Opportunity.usd_operation_value scenario_opportunity)%Q.
Proof.
  assert (Hrun : calculate_arbitrage silent_world [("ETH/USDT", scenario_pair_prices)]
                   initial_state
                 = (Ok [scenario_opportunity],
                    record silent_world initial_state scenario_opportunity))
    by (vm_compute; reflexivity).
  assert (Hin : scenario_opportunity ∈ [scenario_opportunity]) by apply list_elem_of_here.
  destruct (calculate_arbitrage_margin _ _ _ _ _ _ Hrun Hin) as (H1 & H2).
  by split_and!.
Defined.

(** ** Order and independence of the results *)

Lemma emitted_pair item o : emitted item = Some o → Opportunity.pair o = item.1.
Proof.
  unfold emitted. destruct (quote_of item.2) as [q|]; [|done].
  destruct (Qle_bool _ _); [|done]. by intros [= <-].
Qed.

Lemma emitted_pairs_sublist (prices : list (string * list (string * option PriceEntry))) :
  sublist (Opportunity.pair <$> omap emitted prices) prices.*1.
Proof.
  induction prices as [|item prices IH]; csimpl; [done|].
  destruct (emitted item) as [o|] eqn:He; csimpl.
  - rewrite (emitted_pair _ _ He). by apply sublist_skip.
  - by apply sublist_cons.
Qed.

(** X4. The opportunities come in the order of the snapshot mapping, at
    most one per item: their pairs form a sublist of the keys of the
    mapping, so a mapping without repeated keys yields at most one
    opportunity per pair, and an empty mapping yields none. *)
Theorem calculate_arbitrage_order (w : World)
    (prices : list (string * list (string * option PriceEntry)))
    (s s' : State) (rs : list Opportunity.t) :
  calculate_arbitrage w prices s = (Ok rs, s') →
  sublist (Opportunity.pair <$> rs) prices.*1
  ∧ length rs ≤ length prices
  ∧ (NoDup prices.*1 → NoDup (Opportunity.pair <$> rs))
  ∧ (prices = [] → rs = [] ∧ s' = s).
Proof.
  rewrite calculate_arbitrage_run. intros [= <- <-].
  pose proof (emitted_pairs_sublist prices) as Hsub. split_and!.
  - done.
  - apply sublist_length in Hsub. by rewrite !length_fmap in Hsub.
  - intros Hnd. by apply (sublist_NoDup _ _ Hnd).
  - by intros ->.
Qed.

Lemma calculate_arbitrage_order_witness :
  calculate_arbitrage silent_world two_pair_prices initial_state
  = (Ok [scenario_opportunity], record silent_world initial_state scenario_opportunity)
  ∧ sublist (Opportunity.pair <$> [scenario_opportunity]) two_pair_prices.*1
  ∧ length [scenario_opportunity] ≤ length two_pair_prices.
Proof.
  assert (Hrun : calculate_arbitrage silent_world two_pair_prices initial_state
                 = (Ok [scenario_opportunity],
                    record silent_world initial_state scenario_opportunity))
    by (vm_compute; reflexivity).
  destruct (calculate_arbitrage_order _ _ _ _ _ Hrun) as (H1 & H2 & _).
  by split_and!.
Defined.

Lemma valid_prices_without_volume pair_prices :
  valid_prices_of (snapshot_without_volume pair_prices) = valid_prices_of pair_prices.
Proof.
  unfold valid_prices_of, snapshot_without_volume.
  induction pair_prices as [|[k [e|]] l IH]; csimpl; [done| |done].
  destruct (last e); csimpl; by rewrite IH.
Qed.

Lemma emitted_without_volume (prices : list (string * list (string * option PriceEntry))) :
  omap emitted (without_volume prices) = omap emitted prices.
Proof.
  unfold without_volume. induction prices as [|[k pp] prices IH]; csimpl; [done|].
  rewrite IH. f_equal. unfold emitted. cbn [fst snd].
  assert (Hq : quote_of (snapshot_without_volume pp) = quote_of pp).
  { unfold quote_of, quote_pair. by rewrite valid_prices_without_volume. }
  by rewrite Hq.
Qed.

(** X5. The 24h volume stored by [get_prices] plays no part in the
    evaluation: erasing every volume of the snapshot mapping changes
    neither the returned opportunities nor the state left behind. *)
Theorem calculate_arbitrage_ignores_volume (w : World)
    (prices : list (string * list (string * option PriceEntry))) (s : State) :
  calculate_arbitrage w (without_volume prices) s = calculate_arbitrage w prices s.
Proof. by rewrite !calculate_arbitrage_run, emitted_without_volume. Qed.



(** ** The aggregator on a list without repetitions *)

Lemma collected_fresh w n ps acc :
  NoDup (acc.*1 ++ ps) → collected w n ps acc = acc ++ snapshots_from w n ps.
Proof.
  revert n acc; induction ps as [|p ps IH]; intros n acc Hnd;
    cbn [collected snapshots_from].
  - by rewrite app_nil_r.
  - assert (Hp : p ∉ acc.*1).
    { apply NoDup_app in Hnd as (_ & Hd & _). intros Hin. apply (Hd _ Hin). left. }
    rewrite dict_set_fresh by done. rewrite IH.
    + by rewrite <- app_assoc.
    + rewrite fmap_app. simpl. by rewrite <- app_assoc.
Qed.

Lemma snapshots_from_keys w n ps : (snapshots_from w n ps).*1 = ps.
Proof. revert n; induction ps as [|p ps IH]; intros n; csimpl; [done|]. by rewrite IH. Qed.

Lemma snapshots_from_lookup w n ps i p :
  ps !! i = Some p →
  snapshots_from w n ps !! i
  = Some (p, snapshot_from w (n + length exchanges * i) p exchanges).
Proof.
  revert n i; induction ps as [|x ps IH]; intros n i Hi; [done|].
  destruct i as [|i]; cbn [snapshots_from lookup list_lookup] in *.
  - injection Hi as ->. do 3 f_equal. lia.
  - rewrite (IH _ _ Hi). do 3 f_equal. lia.
Qed.

(** X7. For a list of pairs without repetitions the aggregator returns
    the pairs as keys in the order of the list, the i-th one mapped to the
    snapshot set of the answers to calls [6 * i] to [6 * i + 5] of the run;
    for the empty list it returns the empty mapping and touches nothing. *)
Theorem get_prices_keeps_order (w : World) (pairs : list string) (s : State) :
  NoDup pairs →
  ∃ all_prices s',
    get_prices w pairs s = (Ok all_prices, s')
    ∧ all_prices.*1 = pairs
    ∧ (∀ i p, pairs !! i = Some p →
         all_prices !! i
         = Some (p, snapshot_from w (length (calls s) + length exchanges * i) p exchanges))
    ∧ (pairs = [] → all_prices = [] ∧ s' = s).
Proof.
  intros Hnd. rewrite get_prices_run. do 2 eexists. split; [done|].
  rewrite collected_fresh by done. cbn [app]. split_and!.
  - apply snapshots_from_keys.
  - intros i p. apply snapshots_from_lookup.
  - intros ->. split; [done|]. apply log_calls_nil.
Qed.

Lemma get_prices_keeps_order_witness :
  NoDup ["XRP/USDT"; "ETH/USDT"]
  ∧ ∃ all_prices s',
      get_prices steady_world ["XRP/USDT"; "ETH/USDT"] initial_state = (Ok all_prices, s')
      ∧ all_prices.*1 = ["XRP/USDT"; "ETH/USDT"].
Proof.
  assert (Hnd : NoDup ["XRP/USDT"; "ETH/USDT"]).
  { apply (bool_decide_unpack _). vm_compute. exact I. }
  split; [exact Hnd|].
  destruct (get_prices_keeps_order steady_world _ initial_state Hnd)
    as (all_prices & s' & Hrun & Hkeys & _).
  by exists all_prices, s'.
Defined.

(** ** The queries of the filter *)

Lemma filter_ext_elem {A} (P Q : A → Prop) `{!∀ x, Decision (P x)} `{!∀ x, Decision (Q x)}
    (l : list A) :
  (∀ x, x ∈ l → P x ↔ Q x) → filter P l = filter Q l.
Proof.
  induction l as [|x l IH]; intros Heq; [done|].
  rewrite !filter_cons, IH by (intros y Hy; apply Heq; by right).
  destruct (decide (P x)) as [HP|HP], (decide (Q x)) as [HQ|HQ]; try done.
  - destruct HQ. apply Heq; [left | done].
  - destruct HP. apply Heq; [left | done].
Qed.

Lemma after_check_calls w s p :
  calls (after_check w s p)
  = calls s ++ (if bool_decide (p ∈ unsupported_pairs s) then []
                else LoadMarkets <$> exchanges).
Proof.
  unfold after_check. case_bool_decide; [by rewrite app_nil_r|].
  by destruct (Nat.leb 2 _).
Qed.

Lemma after_check_adds_only w s p x :
  x ∈ unsupported_pairs (after_check w s p) → x ∈ unsupported_pairs s ∨ x = p.
Proof.
  rewrite after_check_unsupported. destruct (keeps w s p); [by left|].
  case_bool_decide; [by left|]. set_solver.
Qed.

Lemma filter_calls_NoDup w s pairs :
  NoDup pairs →
  calls (foldl (after_check w) s pairs)
  = calls s ++ (filter (λ p, p ∉ unsupported_pairs s) pairs
                ≫= λ _, LoadMarkets <$> exchanges).
Proof.
  revert s; induction pairs as [|x xs IH]; intros s Hnd.
  - cbn [foldl]. by rewrite app_nil_r.
  - apply NoDup_cons in Hnd as [Hx Hnd]. cbn [foldl]. rewrite IH by done.
    rewrite after_check_calls, filter_cons.
    rewrite (filter_ext_elem (λ p, p ∉ unsupported_pairs (after_check w s x))
               (λ p, p ∉ unsupported_pairs s) xs).
    + case_bool_decide as Hin.
      * rewrite decide_False by (intros H; by apply H). by rewrite app_nil_r.
      * rewrite decide_True by done. rewrite bind_cons. by rewrite <- app_assoc.
    + intros p Hp. split.
      * intros Hn Hs. apply Hn. by apply after_check_mono.
      * intros Hn Hs. apply after_check_adds_only in Hs as [Hs| ->]; done.
Qed.

(** X8. On candidates without repetitions the filter asks every
    configured exchange for its market list once for each candidate that
    is not already in the unsupported set, in order, and makes no other
    call; it never touches the ledger. *)
Theorem get_supported_pairs_queries (w : World) (pairs : list string)
    (s s' : State) (out : list string) :
  NoDup pairs →
  get_supported_pairs w pairs s = (Ok out, s') →
  calls s'
  = calls s ++ (filter (λ p, p ∉ unsupported_pairs s) pairs
                ≫= λ _, LoadMarkets <$> exchanges)
  ∧ length (calls s')
    = length (calls s)
      + length exchanges * length (filter (λ p, p ∉ unsupported_pairs s) pairs)
  ∧ transaction_history s' = transaction_history s.
Proof.
  intros Hnd. rewrite get_supported_pairs_run. intros [= <- <-].
  rewrite filter_calls_NoDup by done. split_and!; [done | | apply filter_history].
  rewrite length_app. f_equal.
  induction (filter _ pairs) as [|p l IH]; [simpl; lia|].
  rewrite bind_cons, length_app, IH, length_fmap. cbn [length]. lia.
Qed.

Lemma get_supported_pairs_queries_witness :
  NoDup ["XRP/USDT"; "ETH/USDT"]
  ∧ ∃ out s',
      get_supported_pairs steady_world ["XRP/USDT"; "ETH/USDT"] seeded_state = (Ok out, s')
      ∧ calls s' = LoadMarkets <$> exchanges.
Proof.
  assert (Hnd : NoDup ["XRP/USDT"; "ETH/USDT"]).
  { apply (bool_decide_unpack _). vm_compute. exact I. }
  split; [exact Hnd|]. do 2 eexists. split; [vm_compute; reflexivity|].
  pose proof (get_supported_pairs_queries steady_world ["XRP/USDT"; "ETH/USDT"]
                seeded_state _ _ Hnd eq_refl) as (Hcalls & _).
  vm_compute. reflexivity.
Defined.

(** ** An outage and its trace *)

Lemma listing_from_all_fail w n p es :
  (∀ n e, load_markets_at w n e = None) → listing_from w n p es = [].
Proof.
  intros Hfail. revert n; induction es as [|e es IH]; intros n; [done|].
  cbn [listing_from]. unfold lists_at. by rewrite Hfail, IH.
Qed.

Lemma filter_all_fail w s pairs :
  (∀ n e, load_markets_at w n e = None) →
  kept w s pairs = []
  ∧ unsupported_pairs (foldl (after_check w) s pairs)
    = unsupported_pairs s ∪ list_to_set pairs.
Proof.
  intros Hfail. revert s; induction pairs as [|x xs IH]; intros s.
  - cbn [kept foldl list_to_set]. split; [done | set_solver].
  - cbn [kept foldl list_to_set]. destruct (IH (after_check w s x)) as [-> ->].
    assert (Hk : keeps w s x = false).
    { unfold keeps. rewrite listing_from_all_fail by done.
      by destruct (bool_decide _). }
    rewrite after_check_unsupported, Hk. split; [done|].
    case_bool_decide; set_solver.
Qed.

(** X9. If every market-list query fails during a run of the filter, the
    run returns no pair and puts every candidate into the unsupported set;
    from then on the filter returns nothing for these candidates and asks
    no exchange, whatever the exchanges would answer. *)
Theorem get_supported_pairs_outage (w w' : World) (pairs : list string) (s : State) :
  (∀ n e, load_markets_at w n e = None) →
  ∃ s', get_supported_pairs w pairs s = (Ok [], s')
    ∧ unsupported_pairs s' = unsupported_pairs s ∪ list_to_set pairs
    ∧ get_supported_pairs w' pairs s' = (Ok [], s').
Proof.
  intros Hfail. rewrite get_supported_pairs_run.
  destruct (filter_all_fail w s pairs Hfail) as [Hk Hu]. rewrite Hk.
  eexists. split; [done|]. split; [done|].
  rewrite get_supported_pairs_run.
  set (s1 := foldl (after_check w) s pairs) in *.
  assert (Hall : ∀ p, p ∈ pairs → p ∈ unsupported_pairs s1).
  { intros p Hp. rewrite Hu. set_solver. }
  clearbody s1. clear Hu Hk.
  induction pairs as [|x xs IH]; [done|].
  cbn [kept foldl].
  destruct (after_check_skip w' s1 x) as [-> ->]; [apply Hall; left|].
  apply IH. intros p Hp. apply Hall. by right.
Qed.

Lemma get_supported_pairs_outage_witness :
  (∀ n e, load_markets_at silent_world n e = None)
  ∧ ∃ s', get_supported_pairs silent_world initial_pairs initial_state = (Ok [], s')
    ∧ get_supported_pairs recovered_world initial_pairs s' = (Ok [], s')
    ∧ (get_supported_pairs recovered_world initial_pairs initial_state).1
      = Ok initial_pairs.
Proof.
  assert (Hfail : ∀ n e, load_markets_at silent_world n e = None) by done.
  split; [exact Hfail|].
  destruct (get_supported_pairs_outage silent_world recovered_world initial_pairs
              initial_state Hfail) as (s' & H1 & _ & H3).
  exists s'. split_and!; [exact H1 | exact H3 |]. vm_compute. reflexivity.
Defined.

Lemma filter_all_unsupported w s pairs :
  (∀ p, p ∈ pairs → p ∈ unsupported_pairs s) →
  kept w s pairs = [] ∧ foldl (after_check w) s pairs = s.
Proof.
  induction pairs as [|x xs IH]; intros Hall; [done|].
  cbn [kept foldl].
  destruct (after_check_skip w s x) as [-> ->]; [apply Hall; left|].
  apply IH. intros p Hp. apply Hall. by right.
Qed.

(** X10. When every candidate pair is in the unsupported set, a call of
    the endpoint asks no exchange, reads no clock and changes nothing in
    the state; it answers with the simulated entry and the ledger as it
    stands. *)
Theorem get_data_api_all_unsupported (w : World) (s : State) :
  (∀ p, p ∈ initial_pairs → p ∈ unsupported_pairs s) →
  ∃ r, get_data_api_dict w s = (Ok r, s)
    ∧ Response.results r = [simulated_result]
    ∧ Response.transaction_history r = transaction_history s.
Proof.
  intros Hall. rewrite get_data_api_dict_run.
  destruct (filter_all_unsupported w s initial_pairs Hall) as [Hk Hf].
  assert (Hp : cycle_pairs w s = []) by exact Hk.
  assert (Hprices : cycle_prices w s = []).
  { unfold cycle_prices. by rewrite Hp. }
  assert (Hres : cycle_results w s = []).
  { unfold cycle_results. by rewrite Hprices. }
  assert (Hs : cycle_state w s = s).
  { unfold cycle_state. rewrite Hres, Hp, Hf. cbn [foldl mbind list_bind].
    apply log_calls_nil. }
  exists (cycle_response w s). rewrite Hs. split; [done|].
  unfold cycle_response. cbn [Response.results Response.transaction_history].
  by rewrite Hres, Hs.
Qed.

Lemma get_data_api_all_unsupported_witness :
  (∀ p, p ∈ initial_pairs → p ∈ unsupported_pairs outage_state)
  ∧ ∃ r, get_data_api_dict recovered_world outage_state = (Ok r, outage_state)
      ∧ Response.results r = [simulated_result]
      ∧ Response.transaction_history r = transaction_history outage_state.
Proof.
  assert (Hall : ∀ p, p ∈ initial_pairs → p ∈ unsupported_pairs outage_state).
  { intros p Hp. unfold outage_state. cbn [unsupported_pairs].
    by apply elem_of_list_to_set. }
  split; [exact Hall|].
  exact (get_data_api_all_unsupported recovered_world outage_state Hall).
Defined.

(** ** A second pass of the filter *)

Lemma filter_settled w markets s pairs :
  (∀ n e, load_markets_at w n e = markets e) →
  (∀ p, p ∈ pairs → p ∉ unsupported_pairs s →
        2 ≤ length (filter (λ e, listed_on markets p e) exchanges)) →
  kept w s pairs = filter (λ p, p ∉ unsupported_pairs s) pairs
  ∧ unsupported_pairs (foldl (after_check w) s pairs) = unsupported_pairs s
  ∧ transaction_history (foldl (after_check w) s pairs) = transaction_history s
  ∧ calls (foldl (after_check w) s pairs)
    = calls s ++ (filter (λ p, p ∉ unsupported_pairs s) pairs
                  ≫= λ _, LoadMarkets <$> exchanges).
Proof.
  intros Hst. revert s; induction pairs as [|x xs IH]; intros s Hel.
  - cbn [kept foldl]. split_and!; try done. by rewrite app_nil_r.
  - cbn [kept foldl]. rewrite filter_cons.
    destruct (decide (x ∈ unsupported_pairs s)) as [Hin|Hin].
    + destruct (after_check_skip w s x Hin) as [-> ->].
      rewrite decide_False by (intros H; by apply H).
      apply IH. intros p Hp. apply Hel. by right.
    + rewrite decide_True by done.
      assert (Hk : keeps w s x = true).
      { unfold keeps. rewrite (listing_stable w markets) by done.
        rewrite bool_decide_eq_false_2 by done. cbn [negb andb].
        apply Nat.leb_le. apply Hel; [left | done]. }
      assert (Hu : unsupported_pairs (after_check w s x) = unsupported_pairs s).
      { by rewrite after_check_unsupported, Hk. }
      assert (Hc : calls (after_check w s x) = calls s ++ (LoadMarkets <$> exchanges)).
      { rewrite after_check_calls. by rewrite bool_decide_eq_false_2. }
      destruct (IH (after_check w s x)) as (H1 & H2 & H3 & H4).
      { intros p Hp. rewrite Hu. apply Hel. by right. }
      rewrite Hk, H1, H2, H3, H4, Hu, Hc, after_check_history, bind_cons.
      split_and!; try done. by rewrite <- app_assoc.
Qed.

(** X11. With market lists that do not change, a second run of the filter
    over the same candidates returns the same pairs as the first, adds
    nothing to the unsupported set, and queries the exchanges only for the
    pairs it returns: the rejected candidates cost no query any more. *)
Theorem get_supported_pairs_second_pass (w : World)
    (markets : string → option (list string))
    (pairs : list string) (s s1 : State) (out : list string) :
  (∀ n e, load_markets_at w n e = markets e) →
  get_supported_pairs w pairs s = (Ok out, s1) →
  ∃ s2, get_supported_pairs w pairs s1 = (Ok out, s2)
    ∧ unsupported_pairs s2 = unsupported_pairs s1
    ∧ calls s2 = calls s1 ++ (out ≫= λ _, LoadMarkets <$> exchanges).
Proof.
  intros Hst. rewrite !get_supported_pairs_run. intros [= <- <-].
  set (s1 := foldl (after_check w) s pairs).
  assert (Hout : kept w s pairs
                 = filter (λ p, p ∉ unsupported_pairs s
                                ∧ 2 ≤ length (filter (λ e, listed_on markets p e) exchanges))
                     pairs).
  { apply (kept_stable w markets); [done | done |]. intros p Hp. by left. }
  assert (Hiff : ∀ p, p ∈ pairs →
            p ∉ unsupported_pairs s1 ↔
            p ∉ unsupported_pairs s
            ∧ 2 ≤ length (filter (λ e, listed_on markets p e) exchanges)).
  { intros p Hp. split.
    - intros Hn. destruct (decide (p ∈ kept w s pairs)) as [Hk|Hk].
      + rewrite Hout in Hk. by apply list_elem_of_filter in Hk as [? _].
      + destruct Hn. by apply kept_complete.
    - intros [Hn Hel] Hin. apply filter_adds in Hin as [Hin|[_ [n Hlt]]]; [done|].
      rewrite (listing_stable w markets) in Hlt by done. lia. }
  destruct (filter_settled w markets s1 pairs Hst) as (H1 & H2 & _ & H4).
  { intros p Hp Hn. by apply Hiff in Hn as [_ ?]. }
  assert (Heq : filter (λ p, p ∉ unsupported_pairs s1) pairs = kept w s pairs).
  { rewrite Hout. by apply filter_ext_elem. }
  eexists. split; [|split; [exact H2|]].
  - by rewrite H1, Heq.
  - by rewrite H4, Heq.
Qed.

Lemma get_supported_pairs_second_pass_witness :
  (∀ n e, load_markets_at steady_world n e = steady_markets e)
  ∧ ∃ s1 s2,
      get_supported_pairs steady_world initial_pairs initial_state = (Ok ["ETH/USDT"], s1)
      ∧ get_supported_pairs steady_world initial_pairs s1 = (Ok ["ETH/USDT"], s2)
      ∧ length (calls s1) = 72
      ∧ length (calls s2) = 78.
Proof.
  assert (Hst : ∀ n e, load_markets_at steady_world n e = steady_markets e) by done.
  split; [exact Hst|].
  assert (Hrun : ∃ s1, get_supported_pairs steady_world initial_pairs initial_state
                       = (Ok ["ETH/USDT"], s1) ∧ length (calls s1) = 72).
  { eexists. split; vm_compute; reflexivity. }
  destruct Hrun as (s1 & Hrun & Hlen).
  destruct (get_supported_pairs_second_pass steady_world steady_markets initial_pairs
              initial_state s1 _ Hst Hrun) as (s2 & Hrun2 & _ & Hcalls).
  exists s1, s2. split_and!; [exact Hrun | exact Hrun2 | exact Hlen |].
  rewrite Hcalls, length_app, Hlen. reflexivity.
Defined.

(** ** The results of a polling cycle *)

Lemma initial_pairs_NoDup : NoDup initial_pairs.
Proof. apply (bool_decide_unpack _). vm_compute. exact I. Qed.

Lemma kept_not_unsupported w s pairs p :
  NoDup pairs → p ∈ kept w s pairs →
  p ∉ unsupported_pairs (foldl (after_check w) s pairs).
Proof.
  revert s; induction pairs as [|x xs IH]; intros s Hnd; cbn [kept foldl];
    [by intros ?%elem_of_nil|].
  apply NoDup_cons in Hnd as [Hx Hnd].
  intros [Hin|Hin]%elem_of_app; [|by apply IH].
  destruct (keeps w s x) eqn:Hk; [|by apply elem_of_nil in Hin].
  apply list_elem_of_singleton in Hin as ->.
  intros Hu. apply filter_adds in Hu as [Hu|[Hu _]]; [|done].
  rewrite after_check_unsupported, Hk in Hu. by apply keeps_true in Hk as [? _].
Qed.

Lemma cycle_prices_snapshots w s :
  cycle_prices w s
  = snapshots_from w (length (calls (foldl (after_check w) s initial_pairs)))
      (cycle_pairs w s).
Proof.
  unfold cycle_prices. rewrite collected_fresh; [done|]. cbn [fmap list_fmap app].
  apply (sublist_NoDup _ _ initial_pairs_NoDup), kept_sublist.
Qed.

Lemma elem_of_snapshots_from w n ps p pp :
  (p, pp) ∈ snapshots_from w n ps → p ∈ ps ∧ pp.*1 = exchanges.
Proof.
  revert n; induction ps as [|x xs IH]; intros n; cbn [snapshots_from];
    [by intros ?%elem_of_nil|].
  intros [Heq|Hin]%elem_of_cons.
  - pose proof (f_equal fst Heq) as Hp. pose proof (f_equal snd Heq) as Hpp.
    cbn [fst snd] in Hp, Hpp. rewrite Hp, Hpp. split; [left | apply snapshot_keys].
  - apply IH in Hin as [??]. split; [by right | done].
Qed.

Lemma cycle_result_inv w s o :
  o ∈ cycle_results w s →
  Opportunity.pair o ∈ cycle_pairs w s
  ∧ Opportunity.sell_exchange o = "binance"
  ∧ Opportunity.buy_exchange o ∈ exchanges
  ∧ Opportunity.buy_exchange o ≠ "binance".
Proof.
  unfold cycle_results. intros Hin.
  apply elem_of_emitted_inv in Hin as (pp & q & Hp & Hq & _ & Ho).
  rewrite cycle_prices_snapshots in Hp. apply elem_of_snapshots_from in Hp as [Hp Hkeys].
  apply quote_of_Some in Hq as (_ & Hbuy & Hse & _).
  apply first_cheapest_snapshot in Hbuy as (Hne & _ & l1 & e & l2 & Hl & _).
  assert (Hb : Opportunity.buy_exchange o = buy_exchange q) by (by rewrite Ho).
  assert (Hs : Opportunity.sell_exchange o = sell_exchange q) by (by rewrite Ho).
  rewrite Hb, Hs. split_and!; [done | done | | done].
  rewrite <- Hkeys, Hl, fmap_app, fmap_cons. cbn [fst].
  apply elem_of_app. right. apply list_elem_of_here.
Qed.

(** X12. Every entry of the results of a polling cycle is either the
    simulated entry or an opportunity for one of the candidate pairs, a
    pair that the cycle's filter kept and that is not in the unsupported
    set after the cycle; it sells on binance and buys on another of the
    configured exchanges. The pairs of the real results follow the order of
    the candidate list, without repetition. *)
Theorem get_data_api_results (w : World) (s s' : State) (r : Response.t) :
  get_data_api_dict w s = (Ok r, s') →
  (∀ o, o ∈ Response.results r →
        o = simulated_result
        ∨ (Opportunity.pair o ∈ initial_pairs
           ∧ Opportunity.pair o ∉ unsupported_pairs s'
           ∧ Opportunity.sell_exchange o = "binance"
           ∧ Opportunity.buy_exchange o ∈ exchanges
           ∧ Opportunity.buy_exchange o ≠ "binance"))
  ∧ (Response.results r = [simulated_result]
     ∨ sublist (Opportunity.pair <$> Response.results r) initial_pairs).
Proof.
  rewrite get_data_api_dict_run. intros [= <- <-].
  unfold cycle_response. cbn [Response.results].
  assert (Hreal : ∀ o, o ∈ cycle_results w s →
            Opportunity.pair o ∈ initial_pairs
            ∧ Opportunity.pair o ∉ unsupported_pairs (cycle_state w s)
            ∧ Opportunity.sell_exchange o = "binance"
            ∧ Opportunity.buy_exchange o ∈ exchanges
            ∧ Opportunity.buy_exchange o ≠ "binance").
  { intros o Ho. apply cycle_result_inv in Ho as (Hp & Hs & Hb & Hne).
    split_and!; try done.
    - exact (elem_of_sublist _ _ _ Hp (kept_sublist w s initial_pairs)).
    - rewrite cycle_state_unsupported.
      apply kept_not_unsupported; [apply initial_pairs_NoDup | done]. }
  assert (Hsub : sublist (Opportunity.pair <$> cycle_results w s) initial_pairs).
  { etrans; [apply emitted_pairs_sublist|].
    rewrite cycle_prices_snapshots, snapshots_from_keys. apply kept_sublist. }
  destruct (cycle_results w s) as [|o rs] eqn:Hrs.
  - split; [|by left]. intros o [->|Hin%elem_of_nil]%elem_of_cons; [by left | done].
  - split; [|by right]. intros o' Ho'. right. by apply Hreal.
Qed.

Lemma get_data_api_results_witness :
  ∃ r s' o,
    get_data_api_dict steady_world initial_state = (Ok r, s')
    ∧ Response.results r = [o]
    ∧ o ≠ simulated_result
    ∧ Opportunity.pair o = "ETH/USDT"
    ∧ Opportunity.pair o ∉ unsupported_pairs s'.
Proof.
  assert (Hrun : ∃ r s' o,
             get_data_api_dict steady_world initial_state = (Ok r, s')
             ∧ Response.results r = [o]
             ∧ o ≠ simulated_result
             ∧ Opportunity.pair o = "ETH/USDT").
  { do 3 eexists. split; [vm_compute; reflexivity|].
    split_and!; [reflexivity | | reflexivity]. intros H. discriminate H. }
  destruct Hrun as (r & s' & o & Hrun & Hres & Hreal & Hpair).
  exists r, s', o. split_and!; [exact Hrun | exact Hres | exact Hreal | exact Hpair |].
  destruct (get_data_api_results _ _ _ _ Hrun) as [Hall _].
  destruct (Hall o) as [Hsim|(_ & Hn & _)];
    [rewrite Hres; apply list_elem_of_here | by destruct Hreal | exact Hn].
Defined.

(** ** The ledger and the call log over the life of the process *)

Lemma filter_calls_prefix w s pairs :
  ∃ cs, calls (foldl (after_check w) s pairs) = calls s ++ cs
        ∧ Forall (λ c, ∃ e, c = LoadMarkets e ∧ e ∈ exchanges) cs.
Proof.
  revert s; induction pairs as [|x xs IH]; intros s; cbn [foldl].
  - exists []. split; [by rewrite app_nil_r | constructor].
  - destruct (IH (after_check w s x)) as (cs & -> & Hcs).
    rewrite after_check_calls. eexists. rewrite <- app_assoc. split; [done|].
    apply Forall_app. split; [|done]. case_bool_decide; [constructor|].
    apply Forall_fmap, Forall_forall. intros e He. by exists e.
Qed.

Lemma run_operation_prefix w s op :
  ∃ txs cs, transaction_history (run_operation w s op) = transaction_history s ++ txs
            ∧ calls (run_operation w s op) = calls s ++ cs.
Proof.
  destruct op as [pairs|pairs|prices|]; unfold run_operation.
  - rewrite get_supported_pairs_run. cbn [snd].
    destruct (filter_calls_prefix w s pairs) as (cs & -> & _).
    exists [], cs. by rewrite filter_history, app_nil_r.
  - rewrite get_prices_run. cbn [snd]. exists [], (pairs ≫= fetches).
    by rewrite log_calls_history, app_nil_r.
  - rewrite calculate_arbitrage_run. cbn [snd]. do 2 eexists.
    by rewrite record_all_history, record_all_calls.
  - rewrite get_data_api_run. cbn [snd]. unfold cycle_state.
    rewrite record_all_history, record_all_calls, log_calls_history, filter_history.
    destruct (filter_calls_prefix w s initial_pairs) as (cs & Hcs & _).
    do 2 eexists. split; [done|].
    unfold log_calls at 1. cbn [calls]. rewrite Hcs, <- !app_assoc. done.
Qed.

(** X14. The ledger and the call log are append-only: whatever sequence
    of operations of the module runs, the ledger and the log before it are
    prefixes of the ledger and the log after it. *)
Theorem ledger_append_only (w : World) (ops : list Operation) (s : State) :
  ∃ txs cs,
    transaction_history (foldl (run_operation w) s ops) = transaction_history s ++ txs
    ∧ calls (foldl (run_operation w) s ops) = calls s ++ cs.
Proof.
  revert s; induction ops as [|op ops IH]; intros s; cbn [foldl].
  - exists [], []. by rewrite !app_nil_r.
  - destruct (IH (run_operation w s op)) as (txs & cs & -> & ->).
    destruct (run_operation_prefix w s op) as (txs0 & cs0 & -> & ->).
    exists (txs0 ++ txs), (cs0 ++ cs). by rewrite !app_assoc.
Qed.

(** ** From the tickers to the opportunities *)

Lemma elem_of_snapshot_from w n p es e v :
  (e, v) ∈ snapshot_from w n p es →
  ∃ j, es !! j = Some e ∧ v = entry_of (fetch_ticker_at w (n + j) e p).
Proof.
  revert n; induction es as [|x es IH]; intros n; cbn [snapshot_from];
    [by intros ?%elem_of_nil|].
  intros [Heq|Hin]%elem_of_cons.
  - injection Heq as -> ->. exists 0. by rewrite Nat.add_0_r.
  - apply IH in Hin as (j & Hj & ->). exists (S j). split; [done|].
    do 2 f_equal. lia.
Qed.

Lemma has_last_snapshot_from w n p e price :
  has_last (snapshot_from w n p exchanges) e price →
  ∃ j ticker, exchanges !! j = Some e
    ∧ fetch_ticker_at w (n + j) e p = Some ticker
    ∧ ticker_last ticker = Some price.
Proof.
  intros (entry & Hin & Hlast).
  apply elem_of_snapshot_from in Hin as (j & Hj & Hv).
  destruct (fetch_ticker_at w (n + j) e p) as [ticker|] eqn:Hf; [|done].
  injection Hv as ->. by exists j, ticker.
Qed.

Lemma elem_of_snapshots_from_lookup w n ps p pp :
  (p, pp) ∈ snapshots_from w n ps →
  ∃ i, ps !! i = Some p ∧ pp = snapshot_from w (n + length exchanges * i) p exchanges.
Proof.
  revert n; induction ps as [|x xs IH]; intros n; cbn [snapshots_from];
    [by intros ?%elem_of_nil|].
  intros [Heq|Hin]%elem_of_cons.
  - pose proof (f_equal fst Heq) as Hp. pose proof (f_equal snd Heq) as Hpp.
    cbn [fst snd] in Hp, Hpp. exists 0. rewrite Hp, Hpp. split; [done|].
    f_equal. lia.
  - apply IH in Hin as (i & Hi & ->). exists (S i). split; [done|]. f_equal. lia.
Qed.

(** X15. When the aggregator's mapping for a list of pairs without
    repetitions is handed to the arbitrage evaluation, the prices of every
    returned opportunity are the last prices answered in that run: the
    sell price is what binance answered for the pair, the buy price is what
    the buy exchange answered for it, at this pair's position in the run. *)
Theorem pipeline_prices_are_fetched (w : World) (pairs : list string)
    (s s1 s2 : State)
    (prices : list (string * list (string * option PriceEntry)))
    (rs : list Opportunity.t) (o : Opportunity.t) :
  NoDup pairs →
  get_prices w pairs s = (Ok prices, s1) →
  calculate_arbitrage w prices s1 = (Ok rs, s2) →
  o ∈ rs →
  ∃ i, pairs !! i = Some (Opportunity.pair o)
    ∧ (∃ j ticker,
         exchanges !! j = Some "binance"
         ∧ fetch_ticker_at w (length (calls s) + length exchanges * i + j)
             "binance" (Opportunity.pair o) = Some ticker
         ∧ ticker_last ticker = Some (Opportunity.sell_price o))
    ∧ (∃ j ticker,
         exchanges !! j = Some (Opportunity.buy_exchange o)
         ∧ fetch_ticker_at w (length (calls s) + length exchanges * i + j)
             (Opportunity.buy_exchange o) (Opportunity.pair o) = Some ticker
         ∧ ticker_last ticker = Some (Opportunity.buy_price o)).
Proof.
  intros Hnd. rewrite get_prices_run. intros [= <- <-].
  rewrite calculate_arbitrage_run. intros [= <- <-] Hin.
  rewrite collected_fresh in Hin by done. cbn [app] in Hin.
  apply elem_of_emitted_inv in Hin as (pp & q & Hp & Hq & _ & Ho).
  apply elem_of_snapshots_from_lookup in Hp as (i & Hi & Hpp).
  apply quote_of_Some in Hq as (Hsell & Hbuy & _).
  apply dict_get_Some_elem, elem_of_valid_prices_of in Hsell.
  destruct Hbuy as (l1 & l2 & Heq & _).
  assert (Hb : (buy_exchange q, buy_price q)
               ∈ other_exchanges_prices_of (valid_prices_of pp)).
  { rewrite Heq. apply elem_of_app. right. apply list_elem_of_here. }
  apply elem_of_other_exchanges_prices_of in Hb as [Hb _].
  apply elem_of_valid_prices_of in Hb.
  rewrite Hpp in Hsell, Hb.
  apply has_last_snapshot_from in Hsell. apply has_last_snapshot_from in Hb.
  assert (Hbe : Opportunity.buy_exchange o = buy_exchange q) by (by rewrite Ho).
  assert (Hbp : Opportunity.buy_price o = buy_price q) by (by rewrite Ho).
  assert (Hsp : Opportunity.sell_price o = sell_price q) by (by rewrite Ho).
  rewrite Hbe, Hbp, Hsp. by exists i.
Qed.

Lemma pipeline_prices_are_fetched_witness :
  NoDup ["ETH/USDT"]
  ∧ ∃ prices s1 s2 o,
      get_prices steady_world ["ETH/USDT"] initial_state = (Ok prices, s1)
      ∧ calculate_arbitrage steady_world prices s1 = (Ok [o], s2)
      ∧ ∃ i, ["ETH/USDT"] !! i = Some (Opportunity.pair o).
Proof.
  assert (Hnd : NoDup ["ETH/USDT"]).
  { apply (bool_decide_unpack _). vm_compute. exact I. }
  split; [exact Hnd|].
  assert (Hrun : ∃ prices s1 s2 o,
             get_prices steady_world ["ETH/USDT"] initial_state = (Ok prices, s1)
             ∧ calculate_arbitrage steady_world prices s1 = (Ok [o], s2)).
  { do 4 eexists. split; vm_compute; reflexivity. }
  destruct Hrun as (prices & s1 & s2 & o & Hp & Hc).
  exists prices, s1, s2, o. split_and!; [exact Hp | exact Hc |].
  destruct (pipeline_prices_are_fetched _ _ _ _ _ _ _ o Hnd Hp Hc) as (i & Hi & _);
    [apply list_elem_of_here|].
  by exists i.
Defined.
